(** * Pilot Traders webhook relay (V1.1.43): registry and routing core

    A shallow embedding of the relay server: the connection handler with its
    [message], [close] and [error] callbacks, the two alert endpoints, the
    status listing and the test endpoint.

    Node runs every callback to completion before the next one starts, so the
    server is a state machine over events.  Each callback reads the clock; one
    reading [now] is passed to each event.

    JavaScript objects are shared by reference.  The client object built by
    the connection handler is stored in [clients] and later added to the
    buckets of [webhookClients] and to [legacyClients]; all three hold the
    same object.  The model keeps the objects in a store [heap] addressed by
    references, and the three tables hold references.  The [ws] objects live
    in a second store, [sockets]; [sent] logs the calls of [ws.send].

    A [webhookId] is whatever JSON value the [register] message carries: a
    string, taken as the sequence of its UTF-16 code units, or another value.
    A [symbol] is only ever tested for being set and compared for equality;
    it is taken as a string when present. *)

From stdpp Require Import gmap strings list fin_maps fin_sets sorting.

Local Open Scope Z_scope.

(** ** Values *)

(** [WebSocket.CONNECTING], [OPEN], [CLOSING], [CLOSED]. *)
Inductive ReadyState := CONNECTING | OPEN | CLOSING | CLOSED.

#[global] Instance ReadyState_eq_dec : EqDecision ReadyState.
Proof. solve_decision. Defined.

(** A field that holds a string, or [null]/[undefined] ([None]). *)
Definition jsval := option string.

(** A JavaScript string as the sequence of its UTF-16 code units; this is
    what [substring] counts. *)
Definition jsstring := list N.

(** The JavaScript string of an ASCII literal. *)
Definition js (s : string) : jsstring :=
  (λ a, N.of_nat (Ascii.nat_of_ascii a)) <$> String.list_ascii_of_string s.

(** A value of [data.webhookId] as the server uses it: a string, or a value
    of another type (a number, [true], an array, an object).  The server
    uses such a value as a [Map] key and calls [substring] on it; the tag of
    a value that is not a string tells [Map] keys apart (two values with the
    same tag are the same key). *)
Inductive jskey :=
  | KStr (s : jsstring)
  | KOther (tag : N).

#[global] Instance jskey_eq_dec : EqDecision jskey.
Proof. solve_decision. Defined.

#[global] Instance jskey_countable : Countable jskey.
Proof.
  refine (inj_countable'
            (λ k, match k with KStr s => inl s | KOther t => inr t end)
            (λ x, match x with inl s => KStr s | inr t => KOther t end) _).
  by intros [].
Defined.

(** The [webhookId] of a message or of a client object: [None] when it is
    absent or [null]. *)
Definition keyval := option jskey.

(** Truthiness of a [webhookId]: absent values and the empty string are
    falsy, every other string and every value [KOther] is truthy (falsy
    numbers and [false] count as absent). *)
Definition truthy_key (v : keyval) : bool :=
  match v with
  | Some (KStr []) => false
  | Some _ => true
  | None => false
  end.

(** JavaScript truthiness: [null], [undefined] and the empty string are
    falsy. *)
Definition truthy (v : jsval) : bool :=
  match v with
  | Some s => negb (String.eqb s "")
  | None => false
  end.

(** The request body of an alert: the text of the payload and its [symbol]
    field ([None] when the body has none). *)
Record Alert := mkAlert {
  alert_symbol : jsval;
  alert_body : string
}.

(** What the server passes to [ws.send] (before [JSON.stringify]). *)
Inductive Frame :=
  | FConnected (clientId : nat) (timestamp : Z)
  | FRegistered (wid : keyval) (mode : string)
  | FPong (timestamp : Z)
  | FSessionCleared (timestamp : Z)
  | FAlert (data : Alert) (wid : option jsstring) (legacy : bool)
      (timestamp : Z).

Record WebSocket := mkWebSocket {
  readyState : ReadyState;
  sent : list Frame
}.

Definition ws_send (m : Frame) (w : WebSocket) : WebSocket :=
  {| readyState := readyState w; sent := sent w ++ [m] |}.

Definition is_open (w : WebSocket) : bool :=
  bool_decide (readyState w = OPEN).

(** [clientObj]; the source's field [id] is [cid] here. *)
Record ClientObj := mkClient {
  ws : nat;
  cid : nat;
  ip : string;
  connectedAt : Z;
  symbol : jsval;
  webhookId : keyval;
  isLegacy : bool;
  ignoreUntil : Z
}.

Definition set_symbol (v : jsval) (c : ClientObj) : ClientObj :=
  {| ws := ws c; cid := cid c; ip := ip c; connectedAt := connectedAt c;
     symbol := v; webhookId := webhookId c; isLegacy := isLegacy c;
     ignoreUntil := ignoreUntil c |}.

Definition set_binding (k : keyval) (l : bool) (c : ClientObj) : ClientObj :=
  {| ws := ws c; cid := cid c; ip := ip c; connectedAt := connectedAt c;
     symbol := symbol c; webhookId := k; isLegacy := l;
     ignoreUntil := ignoreUntil c |}.

Definition set_ignoreUntil (t : Z) (c : ClientObj) : ClientObj :=
  {| ws := ws c; cid := cid c; ip := ip c; connectedAt := connectedAt c;
     symbol := symbol c; webhookId := webhookId c; isLegacy := isLegacy c;
     ignoreUntil := t |}.

(** ** Server state *)

(** [clients] is the key sequence of the [Map] in insertion order; the value
    at key [i] is the reference [i].  [webhookClients] maps a webhook id to a
    [Set] of references, [legacyClients] is a [Set] of references. *)
Record Server := mkServer {
  sockets : gmap nat WebSocket;
  heap : gmap nat ClientObj;
  clients : list nat;
  clientIdCounter : nat;
  webhookClients : gmap jskey (gset nat);
  legacyClients : gset nat
}.

Definition init : Server :=
  {| sockets := ∅; heap := ∅; clients := []; clientIdCounter := 0%nat;
     webhookClients := ∅; legacyClients := ∅ |}.

(** [clients.get(clientId)] *)
Definition clients_get (st : Server) (i : nat) : option ClientObj :=
  if decide (i ∈ clients st) then heap st !! i else None.

(** [clients.set(clientId, clientObj)] on the key sequence. *)
Definition clients_set (i : nat) (l : list nat) : list nat :=
  if decide (i ∈ l) then l else l ++ [i].

(** [clients.delete(clientId)] on the key sequence. *)
Definition clients_delete (i : nat) (l : list nat) : list nat :=
  filter (λ j, j ≠ i) l.

(** [ws.send(frame)] on the socket [s]. *)
Definition socket_send (s : nat) (m : Frame) (ss : gmap nat WebSocket)
  : gmap nat WebSocket :=
  alter (ws_send m) s ss.

(** ** Messages from a client *)

(** The parsed [data] of a message: [register] carries [data.webhookId]
    ([None] when it is absent or not truthy) and whether
    [data.legacy === true]; [Other] is any other type and any text that
    [JSON.parse] rejects. *)
Inductive ClientMsg :=
  | Register (wid : keyval) (legacy : bool)
  | Subscribe (sym : jsval)
  | Ping
  | ClearSession
  | Other.

(** ** The connection handler *)

Definition on_connection (now : Z) (addr : string) (st : Server) : Server :=
  let clientId := S (clientIdCounter st) in
  let clientObj :=
    {| ws := clientId; cid := clientId; ip := addr; connectedAt := now;
       symbol := None; webhookId := None; isLegacy := false;
       ignoreUntil := now + 5000 |} in
  {| sockets :=
       <[clientId := {| readyState := OPEN;
                        sent := [FConnected clientId now] |}]> (sockets st);
     heap := <[clientId := clientObj]> (heap st);
     clients := clients_set clientId (clients st);
     clientIdCounter := clientId;
     webhookClients := webhookClients st;
     legacyClients := legacyClients st |}.

(** [if (!webhookClients.has(k)) webhookClients.set(k, new Set());
     webhookClients.get(k).add(client)] *)
Definition bucket_add (k : jskey) (r : nat) (wc : gmap jskey (gset nat))
  : gmap jskey (gset nat) :=
  let wc1 := if decide (is_Some (wc !! k)) then wc else <[k := ∅]> wc in
  alter (λ b, b ∪ {[r]}) k wc1.

Definition on_register (i : nat) (wid : keyval) (legacy : bool) (st : Server)
  : Server :=
  match clients_get st i with
  | None => st
  | Some client =>
    if truthy_key wid then
      {| sockets := socket_send i (FRegistered wid "user-specific") (sockets st);
         heap := <[i := set_binding wid false client]> (heap st);
         clients := clients st;
         clientIdCounter := clientIdCounter st;
         webhookClients :=
           bucket_add (default (KStr []) wid) i (webhookClients st);
         legacyClients := legacyClients st |}
    else if legacy then
      {| sockets := socket_send i (FRegistered None "legacy") (sockets st);
         heap := <[i := set_binding None true client]> (heap st);
         clients := clients st;
         clientIdCounter := clientIdCounter st;
         webhookClients := webhookClients st;
         legacyClients := legacyClients st ∪ {[i]} |}
    else st
  end.

Definition on_subscribe (i : nat) (sym : jsval) (st : Server) : Server :=
  match clients_get st i with
  | None => st
  | Some client =>
    {| sockets := sockets st;
       heap := <[i := set_symbol sym client]> (heap st);
       clients := clients st;
       clientIdCounter := clientIdCounter st;
       webhookClients := webhookClients st;
       legacyClients := legacyClients st |}
  end.

Definition on_ping (now : Z) (i : nat) (st : Server) : Server :=
  {| sockets := socket_send i (FPong now) (sockets st);
     heap := heap st;
     clients := clients st;
     clientIdCounter := clientIdCounter st;
     webhookClients := webhookClients st;
     legacyClients := legacyClients st |}.

Definition on_clear_session (now : Z) (i : nat) (st : Server) : Server :=
  match clients_get st i with
  | None => st
  | Some client =>
    {| sockets := socket_send i (FSessionCleared now) (sockets st);
       heap := <[i := set_ignoreUntil (now + 10000) client]> (heap st);
       clients := clients st;
       clientIdCounter := clientIdCounter st;
       webhookClients := webhookClients st;
       legacyClients := legacyClients st |}
  end.

(** [ws.on('message')] of connection [i]. *)
Definition on_message (now : Z) (i : nat) (data : ClientMsg) (st : Server)
  : Server :=
  match data with
  | Register wid legacy => on_register i wid legacy st
  | Subscribe sym => on_subscribe i sym st
  | Ping => on_ping now i st
  | ClearSession => on_clear_session now i st
  | Other => st
  end.

(** [webhookClients.get(k).delete(client)] *)
Definition bucket_remove (k : jskey) (r : nat) (wc : gmap jskey (gset nat))
  : gmap jskey (gset nat) :=
  alter (λ b, b ∖ {[r]}) k wc.

(** [if (webhookClients.get(k).size === 0) webhookClients.delete(k)] *)
Definition bucket_prune (k : jskey) (wc : gmap jskey (gset nat))
  : gmap jskey (gset nat) :=
  match wc !! k with
  | Some b => if decide (size b = 0%nat) then delete k wc else wc
  | None => wc
  end.

(** [ws.on('close')] of connection [i]. *)
Definition on_close (i : nat) (st : Server) : Server :=
  let '(wc, lc) :=
    match clients_get st i with
    | Some client =>
      (if truthy_key (webhookId client)
          && bool_decide
               (is_Some (webhookClients st !! default (KStr []) (webhookId client)))
       then bucket_prune (default (KStr []) (webhookId client))
              (bucket_remove (default (KStr []) (webhookId client)) i
                 (webhookClients st))
       else webhookClients st,
       legacyClients st ∖ {[i]})
    | None => (webhookClients st, legacyClients st)
    end in
  {| sockets := sockets st;
     heap := heap st;
     clients := clients_delete i (clients st);
     clientIdCounter := clientIdCounter st;
     webhookClients := wc;
     legacyClients := lc |}.

(** [ws.on('error')] of connection [i]. *)
Definition on_error (i : nat) (st : Server) : Server :=
  let '(wc, lc) :=
    match clients_get st i with
    | Some client =>
      (if truthy_key (webhookId client)
          && bool_decide
               (is_Some (webhookClients st !! default (KStr []) (webhookId client)))
       then bucket_remove (default (KStr []) (webhookId client)) i
              (webhookClients st)
       else webhookClients st,
       legacyClients st ∖ {[i]})
    | None => (webhookClients st, legacyClients st)
    end in
  {| sockets := sockets st;
     heap := heap st;
     clients := clients_delete i (clients st);
     clientIdCounter := clientIdCounter st;
     webhookClients := wc;
     legacyClients := lc |}.

(** ** Alert delivery *)

(** [client.ignoreUntil && Date.now() < client.ignoreUntil] *)
Definition in_ignore_window (now : Z) (client : ClientObj) : bool :=
  negb (ignoreUntil client =? 0) && (now <? ignoreUntil client).

(** [client.symbol && alert.symbol && client.symbol !== alert.symbol] *)
Definition symbol_mismatch (alert : Alert) (client : ClientObj) : bool :=
  truthy (symbol client) && truthy (alert_symbol alert)
  && negb (bool_decide (symbol client = alert_symbol alert)).

(** [client.ws.readyState === WebSocket.OPEN] *)
Definition ws_is_open (ss : gmap nat WebSocket) (client : ClientObj) : bool :=
  match ss !! ws client with
  | Some w => is_open w
  | None => false
  end.

(** The loop state of a delivery: the sockets and the counter [delivered]. *)
Definition Delivery : Type := gmap nat WebSocket * nat.

(** [client.ws.send(message); delivered++] *)
Definition send_and_count (message : Frame) (client : ClientObj)
    (acc : Delivery) : Delivery :=
  (socket_send (ws client) message acc.1, S acc.2).

(** Body of [targetClients.forEach] in the keyed endpoint. *)
Definition keyed_visit (h : gmap nat ClientObj) (now : Z) (message : Frame)
    (r : nat) (acc : Delivery) : Delivery :=
  match h !! r with
  | None => acc
  | Some client =>
    if in_ignore_window now client then acc
    else if ws_is_open acc.1 client then send_and_count message client acc
    else acc
  end.

(** Body of [legacyClients.forEach] in the legacy endpoint. *)
Definition legacy_visit (h : gmap nat ClientObj) (now : Z) (alert : Alert)
    (message : Frame) (r : nat) (acc : Delivery) : Delivery :=
  match h !! r with
  | None => acc
  | Some client =>
    if in_ignore_window now client then acc
    else if symbol_mismatch alert client then acc
    else if ws_is_open acc.1 client then send_and_count message client acc
    else acc
  end.

(** Body of [clients.forEach] in the test endpoint. *)
Definition test_visit (h : gmap nat ClientObj) (message : Frame)
    (r : nat) (acc : Delivery) : Delivery :=
  match h !! r with
  | None => acc
  | Some client =>
    if ws_is_open acc.1 client then send_and_count message client acc
    else acc
  end.

(** One entry of [clientList] in the status listing. *)
Record Summary := mkSummary {
  sum_id : nat;
  sum_connectedAt : Z;
  sum_symbol : jsval;
  sum_webhookId : option jsstring;
  sum_isLegacy : bool
}.

(** The JSON bodies passed to [res.json]; [RServerError] is the HTTP 500
    answer that Express gives when the handler throws. *)
Inductive Response :=
  | RDelivery (success : bool) (message : string) (wid : option jsstring)
      (deliveredTo : nat) (timestamp : Z)
  | RStatus (connectedClients webhookIds nLegacy : nat)
      (clientList : list Summary) (timestamp : Z)
  | RTest (success : bool) (message : string) (deliveredTo : nat)
      (data : Alert)
  | RServerError.

Definition deliveredTo_of (r : Response) : nat :=
  match r with
  | RDelivery _ _ _ n _ => n
  | RStatus _ _ _ _ _ => 0%nat
  | RTest _ _ n _ => n
  | RServerError => 0%nat
  end.

Definition success_of (r : Response) : bool :=
  match r with
  | RDelivery b _ _ _ _ => b
  | RStatus _ _ _ _ _ => true
  | RTest b _ _ _ => b
  | RServerError => false
  end.

Definition with_sockets (ss : gmap nat WebSocket) (st : Server) : Server :=
  {| sockets := ss; heap := heap st; clients := clients st;
     clientIdCounter := clientIdCounter st;
     webhookClients := webhookClients st;
     legacyClients := legacyClients st |}.

(** [app.post('/webhook/:webhookId/alert')] *)
Definition post_webhook_alert (now : Z) (key : jsstring) (alert : Alert)
    (st : Server) : Server * Response :=
  let unconnected :=
    (st, RDelivery true "Alert received but no clients connected" (Some key)
           0%nat now) in
  match webhookClients st !! KStr key with
  | None => unconnected
  | Some targetClients =>
    if decide (size targetClients = 0%nat) then unconnected
    else
      let message := FAlert alert (Some key) false now in
      let acc := set_fold (keyed_visit (heap st) now message)
                   (sockets st, 0%nat) targetClients in
      (with_sockets acc.1 st,
       RDelivery true "Alert delivered" (Some key) acc.2 now)
  end.

(** [app.post('/alert')] *)
Definition post_alert (now : Z) (alert : Alert) (st : Server)
  : Server * Response :=
  let message := FAlert alert None true now in
  let acc := set_fold (legacy_visit (heap st) now alert message)
               (sockets st, 0%nat) (legacyClients st) in
  (with_sockets acc.1 st,
   RDelivery true "Alert received and broadcast to legacy clients" None
     acc.2 now).

(** [s.substring(0, 8)]: the first 8 code units, or all of them when there
    are fewer. *)
Definition substring_0_8 (s : jsstring) : jsstring := take 8 s.

(** [client.webhookId ? client.webhookId.substring(0, 8) + '...' : null].
    The outer [None] is the [TypeError] thrown when a truthy [webhookId] is
    not a string and so has no method [substring]. *)
Definition redact (k : keyval) : option (option jsstring) :=
  if truthy_key k then
    match k with
    | Some (KStr s) => Some (Some (substring_0_8 s ++ js "..."))
    | _ => None
    end
  else Some None.

(** The object pushed for one client; [None] when building it throws. *)
Definition summary_of (i : nat) (client : ClientObj) : option Summary :=
  wid ← redact (webhookId client);
  Some {| sum_id := i;
          sum_connectedAt := connectedAt client;
          sum_symbol := symbol client;
          sum_webhookId := wid;
          sum_isLegacy := isLegacy client |}.

(** [clients.forEach((client, id) => clientList.push({...}))]; [None] when
    the callback throws for some client. *)
Definition snapshot (st : Server) : option (list Summary) :=
  mapM (λ i, heap st !! i ≫= summary_of i) (clients st).

(** [app.get('/status')] *)
Definition get_status (now : Z) (st : Server) : Server * Response :=
  match snapshot st with
  | Some clientList =>
      (st, RStatus (length (clients st)) (size (webhookClients st))
             (size (legacyClients st)) clientList now)
  | None => (st, RServerError)
  end.

Arguments get_status : simpl never.

Definition testAlert : Alert :=
  {| alert_symbol := Some "TEST"; alert_body := "relay-test" |}.

(** [app.get('/test')] *)
Definition get_test (now : Z) (st : Server) : Server * Response :=
  let message := FAlert testAlert None false now in
  let acc := foldl (λ a r, test_visit (heap st) message r a)
               (sockets st, 0%nat) (clients st) in
  (with_sockets acc.1 st, RTest true "Test alert sent" acc.2 testAlert).

(** ** Events *)

(** [Transport i rs]: the transport of socket [i] changes its [readyState]
    (done by the [ws] library, not by the server). *)
Inductive Event :=
  | Connection (addr : string)
  | Message (i : nat) (data : ClientMsg)
  | Close (i : nat)
  | Error (i : nat)
  | Transport (i : nat) (rs : ReadyState)
  | PostWebhookAlert (key : jsstring) (alert : Alert)
  | PostAlert (alert : Alert)
  | GetStatus
  | GetTest.

Definition set_readyState (rs : ReadyState) (w : WebSocket) : WebSocket :=
  {| readyState := rs; sent := sent w |}.

Definition step (now : Z) (e : Event) (st : Server) : Server :=
  match e with
  | Connection addr => on_connection now addr st
  | Message i data => on_message now i data st
  | Close i => on_close i st
  | Error i => on_error i st
  | Transport i rs =>
      with_sockets (alter (set_readyState rs) i (sockets st)) st
  | PostWebhookAlert key alert => (post_webhook_alert now key alert st).1
  | PostAlert alert => (post_alert now alert st).1
  | GetStatus => (get_status now st).1
  | GetTest => (get_test now st).1
  end.

(** A trace is a sequence of events, each with the clock reading at which it
    is handled. *)
Definition run (tr : list (Z * Event)) (st : Server) : Server :=
  foldl (λ s te, step te.1 te.2 s) st tr.

(** The clock readings of a trace never decrease. *)
Fixpoint chronological (last : Z) (tr : list (Z * Event)) : Prop :=
  match tr with
  | [] => True
  | (t, _) :: tr' => last ≤ t ∧ chronological t tr'
  end.

(** ** Vocabulary of the properties *)

(** The bucket of a key: [webhookClients.get(key)], empty when absent. *)
Definition bucket (st : Server) (key : jskey) : gset nat :=
  default ∅ (webhookClients st !! key).

(** The three loop bodies are instances of one body that sends when the
    client passes a test [accept] and its socket is open. *)
Definition visit_if (accept : ClientObj → bool) (h : gmap nat ClientObj)
    (message : Frame) (r : nat) (acc : Delivery) : Delivery :=
  match h !! r with
  | None => acc
  | Some client =>
    if accept client && ws_is_open acc.1 client
    then send_and_count message client acc
    else acc
  end.

(** A delivery loop over the references [l], from the sockets [ss] and the
    count [n]. *)
Definition visit_loop (accept : ClientObj → bool) (h : gmap nat ClientObj)
    (m : Frame) (ss : gmap nat WebSocket) (n : nat) (l : list nat)
  : Delivery :=
  foldr (visit_if accept h m) (ss, n) l.

(** The test of the keyed loop: the client is not in its ignore window. *)
Definition keyed_accept (now : Z) (client : ClientObj) : bool :=
  negb (in_ignore_window now client).

(** The test of the legacy loop: not in the ignore window, and the symbol
    filter does not reject the alert. *)
Definition legacy_accept (now : Z) (alert : Alert) (client : ClientObj) : bool :=
  negb (in_ignore_window now client) && negb (symbol_mismatch alert client).

(** Whether a loop over the store [h] and the sockets [ss] sends to the
    object behind the reference [r]. *)
Definition receives (accept : ClientObj → bool) (h : gmap nat ClientObj)
    (ss : gmap nat WebSocket) (r : nat) : bool :=
  match h !! r with
  | Some client => accept client && ws_is_open ss client
  | None => false
  end.

(** The connections of the primary map whose transport is open. *)
Definition open_clients (st : Server) : list nat :=
  filter (λ r, receives (λ _, true) (heap st) (sockets st) r = true)
    (clients st).

(** What the status listing shows of the connection [i]. *)
Definition summarises (st : Server) (i : nat) (s : Summary) : Prop :=
  ∃ client,
    clients_get st i = Some client
    ∧ sum_id s = cid client
    ∧ sum_connectedAt s = connectedAt client
    ∧ sum_symbol s = symbol client
    ∧ sum_isLegacy s = isLegacy client
    ∧ redact (webhookId client) = Some (sum_webhookId s).

(** The clock reading of the last event of a trace that starts at [T]. *)
Definition last_time (T : Z) (tr : list (Z * Event)) : Z :=
  foldl (λ _ te, te.1) T tr.

(** *** Invariants *)

(** Every client object is stored at its own id and owns the socket of the
    same number. *)
Definition heap_ok (h : gmap nat ClientObj) : Prop :=
  ∀ r c, h !! r = Some c → ws c = r ∧ cid c = r.

(** Every key of the primary map has its client object in the store. *)
Definition clients_allocated (st : Server) : Prop :=
  ∀ i, i ∈ clients st → is_Some (heap st !! i).

(** No deadline lies more than 10000 ms past the clock reading [T]. *)
Definition deadline_bound (T : Z) (st : Server) : Prop :=
  ∀ r c, heap st !! r = Some c → ignoreUntil c ≤ T + 10000.

(** No bucket of the keyed table is empty. *)
Definition no_empty_bucket (st : Server) : Prop :=
  ∀ k b, webhookClients st !! k = Some b → b ≠ ∅.

(** *** Sample traces *)

(** Two connections: the first binds to the key ["abc123"], the second
    registers as legacy; both subscribe to ["BTCUSD"]. *)
Definition two_clients : list (Z * Event) :=
  [(0, Connection "10.0.0.1");
   (0, Connection "10.0.0.2");
   (1, Message 1%nat (Register (Some (KStr (js "abc123"))) false));
   (2, Message 2%nat (Register None true));
   (3, Message 1%nat (Subscribe (Some "BTCUSD")));
   (4, Message 2%nat (Subscribe (Some "BTCUSD")))].

(** The client objects and the sockets after [two_clients]. *)
Definition client1 : ClientObj :=
  {| ws := 1; cid := 1; ip := "10.0.0.1"; connectedAt := 0;
     symbol := Some "BTCUSD"; webhookId := Some (KStr (js "abc123")); isLegacy := false;
     ignoreUntil := 5000 |}.

Definition client2 : ClientObj :=
  {| ws := 2; cid := 2; ip := "10.0.0.2"; connectedAt := 0;
     symbol := Some "BTCUSD"; webhookId := None; isLegacy := true;
     ignoreUntil := 5000 |}.

Definition socket1 : WebSocket :=
  {| readyState := OPEN;
     sent := [FConnected 1 0; FRegistered (Some (KStr (js "abc123"))) "user-specific"] |}.

Definition socket2 : WebSocket :=
  {| readyState := OPEN;
     sent := [FConnected 2 0; FRegistered None "legacy"] |}.

Definition ethusd : Alert :=
  {| alert_symbol := Some "ETHUSD"; alert_body := "buy" |}.

Definition no_symbol : Alert :=
  {| alert_symbol := None; alert_body := "buy" |}.

Definition empty_symbol : Alert :=
  {| alert_symbol := Some ""; alert_body := "buy" |}.

(** One connection that registers under the key ["a"] and then under the
    key ["b"]. *)
Definition rebinding : list (Z * Event) :=
  [(0, Connection "10.0.0.1");
   (1, Message 1%nat (Register (Some (KStr (js "a"))) false));
   (2, Message 1%nat (Register (Some (KStr (js "b"))) false))].

(** One connection that registers as legacy and then under the key ["a"]. *)
Definition legacy_then_keyed : list (Z * Event) :=
  [(0, Connection "10.0.0.1");
   (1, Message 1%nat (Register None true));
   (2, Message 1%nat (Register (Some (KStr (js "a"))) false))].

(** One connection that registers with the number 12345 as [webhookId]. *)
Definition other_key : list (Z * Event) :=
  [(0, Connection "10.0.0.1");
   (1, Message 1%nat (Register (Some (KOther 12345)) false))].

(** One connection that registers under the key ["a"]. *)
Definition one_keyed : list (Z * Event) :=
  [(0, Connection "10.0.0.1");
   (1, Message 1%nat (Register (Some (KStr (js "a"))) false))].

(** *** Further vocabulary *)

#[global] Instance ClientMsg_eq_dec : EqDecision ClientMsg.
Proof. solve_decision. Defined.

#[global] Instance Alert_eq_dec : EqDecision Alert.
Proof. solve_decision. Defined.

#[global] Instance Frame_eq_dec : EqDecision Frame.
Proof. solve_decision. Defined.

#[global] Instance WebSocket_eq_dec : EqDecision WebSocket.
Proof. solve_decision. Defined.

(** Whether an event is a new connection. *)
Definition is_connection (e : Event) : bool :=
  match e with
  | Connection _ => true
  | _ => false
  end.

(** Whether an event is the [error] event of some socket. *)
Definition is_error (e : Event) : bool :=
  match e with
  | Error _ => true
  | _ => false
  end.

(** Every reference held by the primary map, the store, the buckets and the
    legacy set was handed out by the counter: it lies in [1 .. n]. *)
Definition refs_bounded (n : nat) (st : Server) : Prop :=
  (∀ i, i ∈ clients st → (1 ≤ i ≤ n)%nat)
  ∧ (∀ i, is_Some (heap st !! i) → (1 ≤ i ≤ n)%nat)
  ∧ (∀ k i, i ∈ bucket st k → (1 ≤ i ≤ n)%nat)
  ∧ (∀ i, i ∈ legacyClients st → (1 ≤ i ≤ n)%nat).

(** The fields of a connected client agree with the indexes: a client whose
    [webhookId] is set is not legacy and sits in the bucket of that key, a
    client whose [isLegacy] is set has no [webhookId] and sits in the legacy
    set. *)
Definition binding_indexed (st : Server) : Prop :=
  ∀ i c, clients_get st i = Some c →
    (∀ k, webhookId c = Some k →
       k ≠ KStr [] ∧ isLegacy c = false ∧ i ∈ bucket st k)
    ∧ (isLegacy c = true → webhookId c = None ∧ i ∈ legacyClients st).

(** Two states with the same registry: store, primary map, counter and both
    indexes (the sockets may differ). *)
Definition same_registry (st st' : Server) : Prop :=
  heap st' = heap st ∧ clients st' = clients st
  ∧ clientIdCounter st' = clientIdCounter st
  ∧ webhookClients st' = webhookClients st
  ∧ legacyClients st' = legacyClients st.

(** The events that neither a client message nor a connection change cause:
    transport changes and the HTTP endpoints. *)
Definition is_request (e : Event) : bool :=
  match e with
  | Transport _ _ | PostWebhookAlert _ _ | PostAlert _ | GetStatus
  | GetTest => true
  | _ => false
  end.

(** The two connections of [two_clients] after the first one has closed. *)
Definition one_closed : list (Z * Event) :=
  two_clients ++ [(5, Close 1%nat)].

(** The first message sent on every socket is the welcome message that
    carries the socket's own connection id. *)
Definition welcome_first (ss : gmap nat WebSocket) : Prop :=
  ∀ i w, ss !! i = Some w → ∃ t rest, sent w = FConnected i t :: rest.

(** One socket after a handler: untouched, sent one more message, or with a
    new [readyState]. *)
Definition socket_moved (o o' : option WebSocket) : Prop :=
  o' = o ∨ (∃ m, o' = ws_send m <$> o) ∨ (∃ rs, o' = set_readyState rs <$> o).

(** No connected client is registered under the key: none has it as its
    [webhookId]. *)
Definition unbound (st : Server) (key : jsstring) : Prop :=
  ∀ i c, clients_get st i = Some c → webhookId c ≠ Some (KStr key).

(** Some connected client holds a [webhookId] that is not a string. *)
Definition holds_other_key (st : Server) : Prop :=
  ∃ i c tag, clients_get st i = Some c ∧ webhookId c = Some (KOther tag).

(** ** Delivery loops *)

Lemma get_status_state now st : (get_status now st).1 = st.
Proof. unfold get_status. by destruct (snapshot st). Qed.

Lemma truthy_key_Some k : truthy_key (Some k) = true ↔ k ≠ KStr [].
Proof. destruct k as [[|u s]|tag]; simpl; split; done. Qed.

Lemma truthy_key_inv v :
  truthy_key v = true → ∃ k, v = Some k ∧ k ≠ KStr [].
Proof.
  destruct v as [k|]; [|done]. intros Hk. exists k.
  split; [done|]. by apply truthy_key_Some.
Qed.

Lemma keyed_visit_if h now m r acc :
  keyed_visit h now m r acc = visit_if (keyed_accept now) h m r acc.
Proof.
  unfold keyed_visit, visit_if, keyed_accept.
  destruct (h !! r) as [c|]; [|done].
  by destruct (in_ignore_window now c), (ws_is_open acc.1 c).
Qed.

Lemma legacy_visit_if h now a m r acc :
  legacy_visit h now a m r acc = visit_if (legacy_accept now a) h m r acc.
Proof.
  unfold legacy_visit, visit_if, legacy_accept.
  destruct (h !! r) as [c|]; [|done].
  by destruct (in_ignore_window now c), (symbol_mismatch a c),
       (ws_is_open acc.1 c).
Qed.

Lemma test_visit_if h m r acc :
  test_visit h m r acc = visit_if (λ _, true) h m r acc.
Proof.
  unfold test_visit, visit_if. by destruct (h !! r).
Qed.

Lemma foldl_flip_rev {A B} (f : B → A → A) (a : A) (l : list B) :
  foldl (λ x r, f r x) a l = foldr f a (reverse l).
Proof.
  revert a. induction l as [|x l IH]; intros a; simpl; [done|].
  by rewrite IH, reverse_cons, foldr_app.
Qed.

Lemma ws_is_open_send ss s m c :
  ws_is_open (socket_send s m ss) c = ws_is_open ss c.
Proof.
  unfold ws_is_open, socket_send. rewrite lookup_alter.
  case_decide; [subst|done]. by destruct (ss !! ws c).
Qed.

Ltac split_mem :=
  repeat case_decide; try done;
  try (exfalso;
       repeat match goal with
              | H : _ ∈ _ :: _ |- _ => rewrite elem_of_cons in H
              | H : _ ∉ _ :: _ |- _ => rewrite not_elem_of_cons in H
              end; intuition congruence).

Ltac fold_loop :=
  match goal with
  | |- context [foldr (visit_if ?a ?h ?m) (?ss, ?n) ?l] =>
      change (foldr (visit_if a h m) (ss, n) l) with (visit_loop a h m ss n l)
  end.

Section visit.
Context (accept : ClientObj → bool) (h : gmap nat ClientObj) (m : Frame).
Context (ss : gmap nat WebSocket) (n : nat).

Lemma visit_loop_cons r l :
  visit_loop accept h m ss n (r :: l)
    = visit_if accept h m r (visit_loop accept h m ss n l).
Proof. reflexivity. Qed.

Lemma visit_loop_open l c :
  ws_is_open (visit_loop accept h m ss n l).1 c = ws_is_open ss c.
Proof.
  induction l as [|r l IH]; [done|].
  rewrite visit_loop_cons. unfold visit_if.
  destruct (h !! r) as [c'|]; [|done].
  destruct (accept c' && _); [|done].
  unfold send_and_count. simpl. by rewrite ws_is_open_send.
Qed.

Lemma visit_loop_count l :
  (visit_loop accept h m ss n l).2
    = (n + length (filter (λ r, receives accept h ss r = true) l))%nat.
Proof.
  induction l as [|r l IH]; [simpl; lia|].
  rewrite filter_cons, visit_loop_cons.
  destruct (receives accept h ss r) eqn:Hr; unfold receives in Hr;
    unfold visit_if; destruct (h !! r) as [c|]; try done;
    try rewrite visit_loop_open, Hr.
  - rewrite decide_True by done. simpl. rewrite IH. lia.
  - by rewrite decide_False.
Qed.

Lemma visit_loop_sockets l r :
  heap_ok h → NoDup l →
  (visit_loop accept h m ss n l).1 !! r =
    if decide (r ∈ l) then
      if receives accept h ss r then ws_send m <$> ss !! r else ss !! r
    else ss !! r.
Proof.
  intros Hok. induction l as [|x l IH]; intros Hnd.
  - case_decide as Hin; [by apply elem_of_nil in Hin|done].
  - apply NoDup_cons in Hnd as [Hx Hnd]. specialize (IH Hnd).
    rewrite visit_loop_cons. unfold visit_if.
    destruct (h !! x) as [c|] eqn:Hc.
    + rewrite visit_loop_open.
      destruct (Hok _ _ Hc) as [Hws _].
      destruct (accept c && ws_is_open ss c) eqn:Had.
      * unfold send_and_count, socket_send. simpl.
        rewrite Hws, lookup_alter.
        destruct (decide (x = r)) as [->|Hne]; rewrite IH.
        -- unfold receives. rewrite Hc, Had. split_mem.
        -- split_mem.
      * rewrite IH. destruct (decide (x = r)) as [->|Hne].
        -- unfold receives. rewrite Hc, Had. split_mem.
        -- split_mem.
    + rewrite IH. destruct (decide (x = r)) as [->|Hne].
      * unfold receives. rewrite Hc. split_mem.
      * split_mem.
Qed.
End visit.

(** ** Invariants of reachable states *)

Lemma clients_get_Some st i c :
  clients_get st i = Some c → i ∈ clients st ∧ heap st !! i = Some c.
Proof. unfold clients_get. by case_decide. Qed.

Lemma heap_ok_insert h i c c' :
  heap_ok h → h !! i = Some c → ws c' = ws c → cid c' = cid c →
  heap_ok (<[i := c']> h).
Proof.
  intros Hok Hi Hws Hcid r d. rewrite lookup_insert.
  case_decide; [|by apply Hok].
  intros [= <-]. subst r. rewrite Hws, Hcid. by apply Hok.
Qed.

Lemma step_heap_ok now e st :
  heap_ok (heap st) → heap_ok (heap (step now e st)).
Proof.
  intros Hok. destruct e as [addr|i data|i|i|i rs|key alert|alert| |];
    simpl; rewrite ?get_status_state; try done.
  - intros r d. rewrite lookup_insert. case_decide; [|by apply Hok].
    by intros [= <-].
  - destruct data as [wid legacy|sym| | |]; simpl; try done.
    + unfold on_register.
      destruct (clients_get st i) as [c|] eqn:Hc; [|done].
      apply clients_get_Some in Hc as [_ Hc].
      destruct (truthy_key wid); [by eapply heap_ok_insert|].
      destruct legacy; [by eapply heap_ok_insert|done].
    + unfold on_subscribe.
      destruct (clients_get st i) as [c|] eqn:Hc; [|done].
      apply clients_get_Some in Hc as [_ Hc]. by eapply heap_ok_insert.
    + unfold on_clear_session.
      destruct (clients_get st i) as [c|] eqn:Hc; [|done].
      apply clients_get_Some in Hc as [_ Hc]. by eapply heap_ok_insert.
  - unfold on_close. by destruct (clients_get st i).
  - unfold on_error. by destruct (clients_get st i).
  - unfold post_webhook_alert.
    destruct (webhookClients st !! KStr key); [|done]. by case_decide.
Qed.

Lemma run_snoc tr t e st :
  run (tr ++ [(t, e)]) st = step t e (run tr st).
Proof. unfold run. by rewrite foldl_snoc. Qed.

Lemma run_heap_ok tr : heap_ok (heap (run tr init)).
Proof.
  induction tr as [|[t e] tr IH] using rev_ind.
  - intros r c. simpl. by rewrite lookup_empty.
  - rewrite run_snoc. by apply step_heap_ok.
Qed.

Lemma clients_set_NoDup i l : NoDup l → NoDup (clients_set i l).
Proof.
  intros Hl. unfold clients_set. case_decide; [done|].
  apply NoDup_app. split_and!; [done| |apply NoDup_singleton].
  intros x Hx Hx'. apply list_elem_of_singleton in Hx'. by subst.
Qed.

Lemma step_clients_NoDup now e st :
  NoDup (clients st) → NoDup (clients (step now e st)).
Proof.
  intros Hnd. destruct e as [addr|i data|i|i|i rs|key alert|alert| |];
    simpl; rewrite ?get_status_state; try done.
  - by apply clients_set_NoDup.
  - destruct data as [wid legacy|sym| | |]; simpl; try done.
    + unfold on_register. destruct (clients_get st i); [|done].
      destruct (truthy_key wid); [done|]. by destruct legacy.
    + unfold on_subscribe. by destruct (clients_get st i).
    + unfold on_clear_session. by destruct (clients_get st i).
  - unfold on_close. destruct (clients_get st i); by apply NoDup_filter.
  - unfold on_error. destruct (clients_get st i); by apply NoDup_filter.
  - unfold post_webhook_alert.
    destruct (webhookClients st !! KStr key); [|done]. by case_decide.
Qed.

Lemma run_clients_NoDup tr : NoDup (clients (run tr init)).
Proof.
  induction tr as [|[t e] tr IH] using rev_ind.
  - apply NoDup_nil_2.
  - rewrite run_snoc. by apply step_clients_NoDup.
Qed.

(** ** What each endpoint does to one socket *)

Lemma post_webhook_alert_socket now key alert st r :
  heap_ok (heap st) →
  sockets (post_webhook_alert now key alert st).1 !! r =
    if decide (r ∈ bucket st (KStr key)) then
      if receives (keyed_accept now) (heap st) (sockets st) r
      then ws_send (FAlert alert (Some key) false now) <$> sockets st !! r
      else sockets st !! r
    else sockets st !! r.
Proof.
  intros Hok. unfold post_webhook_alert, bucket.
  destruct (webhookClients st !! KStr key) as [b|] eqn:Hb; simpl.
  - case_decide as Hsz.
    + apply size_empty_iff in Hsz. apply leibniz_equiv in Hsz. subst b.
      simpl. by rewrite decide_False by apply not_elem_of_empty.
    + simpl. unfold set_fold. simpl.
      rewrite (foldr_ext _ (visit_if (keyed_accept now) (heap st)
                 (FAlert alert (Some key) false now)) _ (sockets st, 0%nat)
                 _ (elements b));
        [|intros; apply keyed_visit_if|done|done].
      fold_loop. rewrite visit_loop_sockets; [|done|apply NoDup_elements].
      destruct (decide (r ∈ elements b)) as [Hin|Hin];
        rewrite elem_of_elements in Hin; by case_decide.
  - by rewrite decide_False by apply not_elem_of_empty.
Qed.

Lemma post_alert_socket now alert st r :
  heap_ok (heap st) →
  sockets (post_alert now alert st).1 !! r =
    if decide (r ∈ legacyClients st) then
      if receives (legacy_accept now alert) (heap st) (sockets st) r
      then ws_send (FAlert alert None true now) <$> sockets st !! r
      else sockets st !! r
    else sockets st !! r.
Proof.
  intros Hok. unfold post_alert. simpl. unfold set_fold. simpl.
  rewrite (foldr_ext _ (visit_if (legacy_accept now alert) (heap st)
             (FAlert alert None true now)) _ (sockets st, 0%nat)
             _ (elements (legacyClients st)));
    [|intros; apply legacy_visit_if|done|done].
  fold_loop. rewrite visit_loop_sockets; [|done|apply NoDup_elements].
  destruct (decide (r ∈ elements (legacyClients st))) as [Hin|Hin];
    rewrite elem_of_elements in Hin; by case_decide.
Qed.

Lemma get_test_socket now st r :
  heap_ok (heap st) → NoDup (clients st) →
  sockets (get_test now st).1 !! r =
    if decide (r ∈ clients st) then
      if receives (λ _, true) (heap st) (sockets st) r
      then ws_send (FAlert testAlert None false now) <$> sockets st !! r
      else sockets st !! r
    else sockets st !! r.
Proof.
  intros Hok Hnd. unfold get_test. simpl.
  rewrite (foldl_flip_rev (test_visit (heap st) _)).
  rewrite (foldr_ext _ (visit_if (λ _, true) (heap st)
             (FAlert testAlert None false now)) _ (sockets st, 0%nat)
             _ (reverse (clients st)));
    [|intros; apply test_visit_if|done|done].
  fold_loop. rewrite visit_loop_sockets; [|done|by rewrite reverse_Permutation].
  destruct (decide (r ∈ reverse (clients st))) as [Hin|Hin];
    rewrite elem_of_reverse in Hin; by case_decide.
Qed.

Lemma post_webhook_alert_count now key alert st :
  deliveredTo_of (post_webhook_alert now key alert st).2 =
    length (filter (λ r, receives (keyed_accept now) (heap st) (sockets st) r = true)
              (elements (bucket st (KStr key)))).
Proof.
  unfold post_webhook_alert, bucket.
  destruct (webhookClients st !! KStr key) as [b|] eqn:Hb; simpl.
  - case_decide as Hsz.
    + apply size_empty_iff in Hsz. apply leibniz_equiv in Hsz. subst b.
      by rewrite elements_empty.
    + simpl. unfold set_fold. simpl.
      rewrite (foldr_ext _ (visit_if (keyed_accept now) (heap st)
                 (FAlert alert (Some key) false now)) _ (sockets st, 0%nat)
                 _ (elements b));
        [|intros; apply keyed_visit_if|done|done].
      fold_loop. by rewrite visit_loop_count.
  - by rewrite elements_empty.
Qed.

Lemma post_alert_count now alert st :
  deliveredTo_of (post_alert now alert st).2 =
    length (filter (λ r, receives (legacy_accept now alert) (heap st) (sockets st) r = true)
              (elements (legacyClients st))).
Proof.
  unfold post_alert. simpl. unfold set_fold. simpl.
  rewrite (foldr_ext _ (visit_if (legacy_accept now alert) (heap st)
             (FAlert alert None true now)) _ (sockets st, 0%nat)
             _ (elements (legacyClients st)));
    [|intros; apply legacy_visit_if|done|done].
  fold_loop. by rewrite visit_loop_count.
Qed.

Lemma get_test_count now st :
  deliveredTo_of (get_test now st).2 = length (open_clients st).
Proof.
  unfold get_test, open_clients. simpl.
  rewrite (foldl_flip_rev (test_visit (heap st) _)).
  rewrite (foldr_ext _ (visit_if (λ _, true) (heap st)
             (FAlert testAlert None false now)) _ (sockets st, 0%nat)
             _ (reverse (clients st)));
    [|intros; apply test_visit_if|done|done].
  fold_loop. rewrite visit_loop_count. simpl. by rewrite reverse_Permutation.
Qed.

Lemma in_ignore_window_true now c :
  0 ≤ now → now < ignoreUntil c → in_ignore_window now c = true.
Proof.
  intros H0 Hlt. unfold in_ignore_window.
  apply andb_true_iff. split.
  - apply negb_true_iff, Z.eqb_neq. lia.
  - by apply Z.ltb_lt.
Qed.

Lemma in_ignore_window_false now c :
  ignoreUntil c ≤ now → in_ignore_window now c = false.
Proof.
  intros Hle. unfold in_ignore_window.
  apply andb_false_iff. right. apply Z.ltb_ge. lia.
Qed.

Lemma ws_is_open_lookup ss c w :
  ss !! ws c = Some w → readyState w = OPEN → ws_is_open ss c = true.
Proof.
  intros Hw Ho. unfold ws_is_open, is_open. rewrite Hw.
  by apply bool_decide_eq_true.
Qed.

Example two_clients_heap :
  heap (run two_clients init) !! 1%nat = Some client1
  ∧ heap (run two_clients init) !! 2%nat = Some client2.
Proof. split; vm_compute; reflexivity. Qed.

Example two_clients_sockets :
  sockets (run two_clients init) !! 1%nat = Some socket1
  ∧ sockets (run two_clients init) !! 2%nat = Some socket2.
Proof. split; vm_compute; reflexivity. Qed.

(** ** Properties of alert delivery *)

(** The guard of the keyed endpoint: a keyed alert for a key whose bucket
    holds no reference is answered with success and a delivery count of 0,
    and the whole server state (primary map, keyed table, legacy set,
    sockets) is left as it was. *)
Theorem keyed_alert_without_bound_connection now key alert st :
  (∀ r, r ∉ bucket st (KStr key)) →
  (post_webhook_alert now key alert st).1 = st
  ∧ deliveredTo_of (post_webhook_alert now key alert st).2 = 0%nat
  ∧ success_of (post_webhook_alert now key alert st).2 = true.
Proof.
  intros Hnone. unfold post_webhook_alert, bucket in *.
  destruct (webhookClients st !! KStr key) as [b|]; simpl in *; [|done].
  rewrite decide_True; [done|].
  apply size_empty_iff. intros r. split; [|by intros ?%not_elem_of_empty].
  intros Hr. by apply Hnone in Hr.
Qed.

Lemma keyed_alert_without_bound_connection_witness :
  (post_webhook_alert 6000 (js "zzz") ethusd (run two_clients init)).1
    = run two_clients init
  ∧ deliveredTo_of
      (post_webhook_alert 6000 (js "zzz") ethusd (run two_clients init)).2 = 0%nat
  ∧ success_of
      (post_webhook_alert 6000 (js "zzz") ethusd (run two_clients init)).2 = true.
Proof.
  apply (keyed_alert_without_bound_connection 6000 (js "zzz") ethusd
           (run two_clients init)).
  intros r. vm_compute. intros H. discriminate H.
Defined.

(** C4 (the code departs from it): after registering under ["a"] and then
    under ["b"] no connected client is registered under ["a"] any more, yet
    the bucket of ["a"] still holds the connection, and an alert posted for
    ["a"] is sent to it and reported with a delivery count of 1. *)
Theorem keyed_alert_reaches_stale_bucket_entry :
  unbound (run rebinding init) (js "a")
  ∧ elements (bucket (run rebinding init) (KStr (js "a"))) = [1%nat]
  ∧ deliveredTo_of
      (post_webhook_alert 6000 (js "a") ethusd (run rebinding init)).2
    = 1%nat
  ∧ sent <$> sockets
               (post_webhook_alert 6000 (js "a") ethusd (run rebinding init)).1
               !! 1%nat
    = Some [FConnected 1 0; FRegistered (Some (KStr (js "a"))) "user-specific";
            FRegistered (Some (KStr (js "b"))) "user-specific";
            FAlert ethusd (Some (js "a")) false 6000].
Proof.
  split; [|repeat split; vm_compute; reflexivity].
  intros i c [Hin Hc]%clients_get_Some.
  assert (clients (run rebinding init) = [1%nat]) as E
    by (vm_compute; reflexivity).
  rewrite E in Hin. apply list_elem_of_singleton in Hin as ->.
  assert (webhookId <$> heap (run rebinding init) !! 1%nat
          = Some (Some (KStr (js "b")))) as Ew by (vm_compute; reflexivity).
  rewrite Hc in Ew. injection Ew as ->. intros H. discriminate H.
Qed.

(** C5, as the code has it: the symbol filter is consulted on the legacy path
    only.  A connection in the bucket of the alert's key that is outside its
    ignore window and whose transport is open is sent the keyed alert
    whatever its symbol filter is.  On the legacy path a connection whose
    filter is set is sent nothing when the alert carries a non-empty symbol
    that differs from the filter; an alert whose symbol is missing or empty
    passes the filter. *)
Theorem symbol_filter_on_legacy_path_only tr now alert :
  let st := run tr init in
  (∀ key r client w,
      r ∈ bucket st (KStr key) →
      heap st !! r = Some client →
      sockets st !! r = Some w →
      in_ignore_window now client = false →
      readyState w = OPEN →
      sockets (post_webhook_alert now key alert st).1 !! r
        = Some (ws_send (FAlert alert (Some key) false now) w)
      ∧ receives (keyed_accept now) (heap st) (sockets st) r = true)
  ∧ (∀ r client w,
      r ∈ legacyClients st →
      heap st !! r = Some client →
      sockets st !! r = Some w →
      truthy (symbol client) = true →
      truthy (alert_symbol alert) = true →
      symbol client ≠ alert_symbol alert →
      sockets (post_alert now alert st).1 !! r = Some w
      ∧ receives (legacy_accept now alert) (heap st) (sockets st) r = false)
  ∧ (∀ r client w,
      r ∈ legacyClients st →
      heap st !! r = Some client →
      sockets st !! r = Some w →
      in_ignore_window now client = false →
      readyState w = OPEN →
      truthy (alert_symbol alert) = false →
      sockets (post_alert now alert st).1 !! r
        = Some (ws_send (FAlert alert None true now) w)
      ∧ receives (legacy_accept now alert) (heap st) (sockets st) r = true).
Proof.
  intros st. pose proof (run_heap_ok tr) as Hok. fold st in Hok. split_and!.
  - intros key r client w Hin Hc Hw Hwin Hopen.
    destruct (Hok _ _ Hc) as [Hws _].
    assert (receives (keyed_accept now) (heap st) (sockets st) r = true) as Hr.
    { unfold receives, keyed_accept. rewrite Hc, Hwin. simpl.
      apply (ws_is_open_lookup _ _ w); [by rewrite Hws|done]. }
    split; [|done].
    rewrite post_webhook_alert_socket by done.
    rewrite decide_True by done. by rewrite Hr, Hw.
  - intros r client w Hin Hc Hw Hf Ha Hne.
    assert (receives (legacy_accept now alert) (heap st) (sockets st) r = false)
      as Hr.
    { unfold receives, legacy_accept, symbol_mismatch. rewrite Hc, Hf, Ha.
      rewrite bool_decide_eq_false_2 by done. simpl.
      by rewrite andb_false_r. }
    split; [|done].
    rewrite post_alert_socket by done.
    rewrite decide_True by done. by rewrite Hr.
  - intros r client w Hin Hc Hw Hwin Hopen Ha.
    destruct (Hok _ _ Hc) as [Hws _].
    assert (receives (legacy_accept now alert) (heap st) (sockets st) r = true)
      as Hr.
    { unfold receives, legacy_accept, symbol_mismatch.
      rewrite Hc, Hwin, Ha, andb_false_r. simpl.
      apply (ws_is_open_lookup _ _ w); [by rewrite Hws|done]. }
    split; [|done].
    rewrite post_alert_socket by done.
    rewrite decide_True by done. by rewrite Hr, Hw.
Qed.

(** C5 as stated fails: a legacy connection with the filter ["BTCUSD"] is
    sent an alert whose symbol is the empty string, which differs from the
    filter, and is counted. *)
Lemma symbol_filter_passes_alert_with_empty_symbol :
  symbol <$> heap (run two_clients init) !! 2%nat = Some (Some "BTCUSD")
  ∧ alert_symbol empty_symbol = Some ""
  ∧ sent <$> sockets (post_alert 6000 empty_symbol (run two_clients init)).1
               !! 2%nat
    = Some [FConnected 2 0; FRegistered None "legacy";
            FAlert empty_symbol None true 6000]
  ∧ deliveredTo_of (post_alert 6000 empty_symbol (run two_clients init)).2
    = 1%nat.
Proof. repeat split; vm_compute; reflexivity. Qed.

Lemma symbol_filter_on_legacy_path_only_witness :
  sockets
    (post_webhook_alert 6000 (js "abc123") ethusd (run two_clients init)).1
    !! 1%nat
    = Some (ws_send (FAlert ethusd (Some (js "abc123")) false 6000) socket1)
  ∧ sockets (post_alert 6000 ethusd (run two_clients init)).1 !! 2%nat
    = Some socket2
  ∧ sockets (post_alert 6000 empty_symbol (run two_clients init)).1 !! 2%nat
    = Some (ws_send (FAlert empty_symbol None true 6000) socket2).
Proof.
  destruct (symbol_filter_on_legacy_path_only two_clients 6000 ethusd)
    as (Hkeyed & Hlegacy & _).
  destruct (symbol_filter_on_legacy_path_only two_clients 6000 empty_symbol)
    as (_ & _ & Hpass).
  split_and!.
  - apply (Hkeyed (js "abc123") 1%nat client1 socket1);
      vm_compute; reflexivity.
  - apply (Hlegacy 2%nat client2 socket2); try (vm_compute; reflexivity).
    vm_compute. intros H. discriminate H.
  - apply (Hpass 2%nat client2 socket2); vm_compute; reflexivity.
Defined.

(** C6, as the code has it: on the legacy path a connection whose symbol
    filter is set (a non-empty string), that is outside its ignore window and
    whose transport is open, is sent an alert that carries no symbol (or an
    empty one) and an alert whose symbol equals the filter exactly; it is not
    sent an alert that carries a different non-empty symbol. *)
Theorem legacy_symbol_filter_decision tr now alert r client w f :
  let st := run tr init in
  r ∈ legacyClients st →
  heap st !! r = Some client →
  sockets st !! r = Some w →
  in_ignore_window now client = false →
  readyState w = OPEN →
  symbol client = Some f →
  f ≠ "" →
  (truthy (alert_symbol alert) = false ∨ alert_symbol alert = Some f →
     sockets (post_alert now alert st).1 !! r
       = Some (ws_send (FAlert alert None true now) w))
  ∧ (truthy (alert_symbol alert) = true → alert_symbol alert ≠ Some f →
     sockets (post_alert now alert st).1 !! r = Some w).
Proof.
  intros st Hin Hc Hw Hwin Hopen Hf Hne.
  pose proof (run_heap_ok tr) as Hok. fold st in Hok.
  destruct (Hok _ _ Hc) as [Hws _].
  assert (ws_is_open (sockets st) client = true) as Ho.
  { apply (ws_is_open_lookup _ _ w); [by rewrite Hws|done]. }
  rewrite post_alert_socket by done. rewrite decide_True by done.
  unfold receives, legacy_accept, symbol_mismatch.
  rewrite Hc, Hwin, Ho, Hf, Hw. simpl.
  split.
  - intros [Ha| ->].
    + by rewrite Ha, andb_false_r.
    + by rewrite bool_decide_eq_true_2, andb_false_r.
  - intros Ha Hneq. rewrite Ha.
    rewrite bool_decide_eq_false_2 by done.
    assert (String.eqb f "" = false) as -> by by apply String.eqb_neq.
    done.
Qed.

Lemma legacy_symbol_filter_decision_witness :
  sockets (post_alert 6000 no_symbol (run two_clients init)).1 !! 2%nat
    = Some (ws_send (FAlert no_symbol None true 6000) socket2).
Proof.
  apply (legacy_symbol_filter_decision two_clients 6000 no_symbol
           2%nat client2 socket2 "BTCUSD");
    try (vm_compute; reflexivity).
  - vm_compute. intros H. discriminate H.
  - left. vm_compute. reflexivity.
Defined.

(** C6 as stated fails: a legacy connection with the filter ["BTCUSD"] is
    sent an alert whose payload has no [symbol] field, and is counted. *)
Lemma symbol_filter_passes_alert_without_symbol :
  symbol <$> heap (run two_clients init) !! 2%nat = Some (Some "BTCUSD")
  ∧ alert_symbol no_symbol = None
  ∧ sent <$> sockets (post_alert 6000 no_symbol (run two_clients init)).1
               !! 2%nat
    = Some [FConnected 2 0; FRegistered None "legacy";
            FAlert no_symbol None true 6000]
  ∧ deliveredTo_of (post_alert 6000 no_symbol (run two_clients init)).2
    = 1%nat.
Proof. repeat split; vm_compute; reflexivity. Qed.

(** C8, as the code has it: a new connection starts with [ignoreUntil] 5000 ms
    past its connect time.  While the clock (milliseconds since the epoch,
    so not negative) is before a connection's
    [ignoreUntil], the keyed and the legacy alert endpoints send it nothing
    and do not count it, whatever its bucket, legacy membership or symbol
    filter; the delivery count is the number of connections the loop admits.
    Once the window has elapsed, a connection with an open transport is sent
    the keyed alert of its bucket, and the legacy alert when it is in the
    legacy set and its symbol filter does not reject the alert. *)
Theorem ignore_window_gates_webhook_delivery tr now addr key alert :
  let st := run tr init in
  (∃ c, clients_get (on_connection now addr st) (S (clientIdCounter st)) = Some c
        ∧ ignoreUntil c = now + 5000)
  ∧ deliveredTo_of (post_webhook_alert now key alert st).2
    = length (filter (λ r, receives (keyed_accept now) (heap st) (sockets st) r = true)
                (elements (bucket st (KStr key))))
  ∧ deliveredTo_of (post_alert now alert st).2
    = length (filter (λ r, receives (legacy_accept now alert) (heap st) (sockets st) r = true)
                (elements (legacyClients st)))
  ∧ (∀ r client,
      heap st !! r = Some client → 0 ≤ now → now < ignoreUntil client →
      sockets (post_webhook_alert now key alert st).1 !! r = sockets st !! r
      ∧ sockets (post_alert now alert st).1 !! r = sockets st !! r
      ∧ receives (keyed_accept now) (heap st) (sockets st) r = false
      ∧ receives (legacy_accept now alert) (heap st) (sockets st) r = false)
  ∧ (∀ r client w,
      heap st !! r = Some client → sockets st !! r = Some w →
      ignoreUntil client ≤ now → readyState w = OPEN →
      (r ∈ bucket st (KStr key) →
         sockets (post_webhook_alert now key alert st).1 !! r
           = Some (ws_send (FAlert alert (Some key) false now) w)
         ∧ receives (keyed_accept now) (heap st) (sockets st) r = true)
      ∧ (r ∈ legacyClients st → symbol_mismatch alert client = false →
         sockets (post_alert now alert st).1 !! r
           = Some (ws_send (FAlert alert None true now) w)
         ∧ receives (legacy_accept now alert) (heap st) (sockets st) r = true)).
Proof.
  intros st. pose proof (run_heap_ok tr) as Hok. fold st in Hok.
  split_and!.
  - eexists. split.
    + unfold clients_get, on_connection, clients_set. simpl.
      rewrite lookup_insert_eq. case_decide as Hin; [reflexivity|].
      exfalso. apply Hin. case_decide; [done|].
      apply elem_of_app. right. by apply list_elem_of_singleton.
    + reflexivity.
  - apply post_webhook_alert_count.
  - apply post_alert_count.
  - intros r client Hc H0 Hlt.
    pose proof (in_ignore_window_true _ _ H0 Hlt) as Hwin.
    assert (receives (keyed_accept now) (heap st) (sockets st) r = false) as Hk.
    { unfold receives, keyed_accept. by rewrite Hc, Hwin. }
    assert (receives (legacy_accept now alert) (heap st) (sockets st) r = false)
      as Hl.
    { unfold receives, legacy_accept. by rewrite Hc, Hwin. }
    split_and!; try done.
    + rewrite post_webhook_alert_socket by done. rewrite Hk. by case_decide.
    + rewrite post_alert_socket by done. rewrite Hl. by case_decide.
  - intros r client w Hc Hw Hle Hopen.
    pose proof (in_ignore_window_false _ _ Hle) as Hwin.
    destruct (Hok _ _ Hc) as [Hws _].
    assert (ws_is_open (sockets st) client = true) as Ho.
    { apply (ws_is_open_lookup _ _ w); [by rewrite Hws|done]. }
    split.
    + intros Hin.
      assert (receives (keyed_accept now) (heap st) (sockets st) r = true) as Hr.
      { unfold receives, keyed_accept. by rewrite Hc, Hwin, Ho. }
      split; [|done].
      rewrite post_webhook_alert_socket by done.
      rewrite decide_True by done. by rewrite Hr, Hw.
    + intros Hin Hsym.
      assert (receives (legacy_accept now alert) (heap st) (sockets st) r = true)
        as Hr.
      { unfold receives, legacy_accept. by rewrite Hc, Hwin, Hsym, Ho. }
      split; [|done].
      rewrite post_alert_socket by done.
      rewrite decide_True by done. by rewrite Hr, Hw.
Qed.

Lemma ignore_window_gates_webhook_delivery_witness :
  sockets (post_webhook_alert 4999 (js "abc123") ethusd (run two_clients init)).1
    !! 1%nat = Some socket1
  ∧ sockets (post_webhook_alert 5000 (js "abc123") ethusd (run two_clients init)).1
    !! 1%nat
    = Some (ws_send (FAlert ethusd (Some (js "abc123")) false 5000) socket1).
Proof.
  pose proof (ignore_window_gates_webhook_delivery two_clients 4999
                "10.0.0.3" (js "abc123") ethusd) as (_ & _ & _ & Hin & _).
  pose proof (ignore_window_gates_webhook_delivery two_clients 5000
                "10.0.0.3" (js "abc123") ethusd) as (_ & _ & _ & _ & Hout).
  split.
  - assert (heap (run two_clients init) !! 1%nat = Some client1) as Hc
      by (vm_compute; reflexivity).
    destruct (Hin 1%nat client1 Hc) as [Hsame _]; [lia|simpl; lia|].
    rewrite Hsame. vm_compute. reflexivity.
  - assert (heap (run two_clients init) !! 1%nat = Some client1) as Hc
      by (vm_compute; reflexivity).
    assert (sockets (run two_clients init) !! 1%nat = Some socket1) as Hw
      by (vm_compute; reflexivity).
    destruct (Hout 1%nat client1 socket1 Hc Hw) as [Hkeyed _];
      [simpl; lia|reflexivity|].
    apply Hkeyed. vm_compute. reflexivity.
Defined.

(** C8 as stated fails: one millisecond after connecting, well inside the
    ignore window, the connection is sent the alert of the test endpoint and
    is counted as delivered. *)
Lemma test_alert_sent_inside_ignore_window :
  ignoreUntil <$> heap (run [(0, Connection "10.0.0.1")] init) !! 1%nat
    = Some 5000
  ∧ sent <$> sockets (get_test 1 (run [(0, Connection "10.0.0.1")] init)).1
               !! 1%nat
    = Some [FConnected 1 0; FAlert testAlert None false 1]
  ∧ deliveredTo_of (get_test 1 (run [(0, Connection "10.0.0.1")] init)).2
    = 1%nat.
Proof. repeat split; vm_compute; reflexivity. Qed.

(** C10: the test endpoint sends its alert to every connection of the primary
    map whose transport is open and counts each of them; the ignore window,
    the symbol filter and the key or legacy binding of the connection are not
    looked at. *)
Theorem test_alert_reaches_every_open_connection tr now r client w :
  let st := run tr init in
  r ∈ clients st →
  heap st !! r = Some client →
  sockets st !! r = Some w →
  readyState w = OPEN →
  sockets (get_test now st).1 !! r
    = Some (ws_send (FAlert testAlert None false now) w)
  ∧ r ∈ open_clients st
  ∧ deliveredTo_of (get_test now st).2 = length (open_clients st).
Proof.
  intros st Hin Hc Hw Hopen.
  pose proof (run_heap_ok tr) as Hok. fold st in Hok.
  pose proof (run_clients_NoDup tr) as Hnd. fold st in Hnd.
  destruct (Hok _ _ Hc) as [Hws _].
  assert (receives (λ _, true) (heap st) (sockets st) r = true) as Hr.
  { unfold receives. rewrite Hc. simpl.
    apply (ws_is_open_lookup _ _ w); [by rewrite Hws|done]. }
  split_and!.
  - rewrite get_test_socket by done.
    rewrite decide_True by done. by rewrite Hr, Hw.
  - unfold open_clients. by apply list_elem_of_filter.
  - apply get_test_count.
Qed.

Lemma test_alert_reaches_every_open_connection_witness :
  in_ignore_window 10 client1 = true
  ∧ symbol client1 ≠ alert_symbol testAlert
  ∧ sockets (get_test 10 (run two_clients init)).1 !! 1%nat
    = Some (ws_send (FAlert testAlert None false 10) socket1)
  ∧ deliveredTo_of (get_test 10 (run two_clients init)).2 = 2%nat.
Proof.
  assert (1%nat ∈ clients (run two_clients init)) as Hin
    by (vm_compute; constructor).
  assert (heap (run two_clients init) !! 1%nat = Some client1) as Hc
    by (vm_compute; reflexivity).
  assert (sockets (run two_clients init) !! 1%nat = Some socket1) as Hw
    by (vm_compute; reflexivity).
  destruct (test_alert_reaches_every_open_connection two_clients 10
              1%nat client1 socket1 Hin Hc Hw eq_refl)
    as (Hsock & _ & Hcount).
  split_and!.
  - vm_compute. reflexivity.
  - vm_compute. intros H. discriminate H.
  - exact Hsock.
  - rewrite Hcount. vm_compute. reflexivity.
Defined.

(** ** The ignore-window deadline along a trace *)

Lemma deadline_bound_insert T now st i c' :
  T ≤ now → deadline_bound T st →
  ignoreUntil c' ≤ now + 10000 →
  ∀ r d, <[i := c']> (heap st) !! r = Some d → ignoreUntil d ≤ now + 10000.
Proof.
  intros HT Hb Hc' r d. rewrite lookup_insert. case_decide.
  - by intros [= <-].
  - intros Hd. apply Hb in Hd. lia.
Qed.

Lemma deadline_bound_mono T now st :
  T ≤ now → deadline_bound T st → deadline_bound now st.
Proof. intros HT Hb r c Hc. apply Hb in Hc. lia. Qed.

Lemma step_deadline_bound T now e st :
  T ≤ now → deadline_bound T st → deadline_bound now (step now e st).
Proof.
  intros HT Hb. pose proof (deadline_bound_mono _ _ _ HT Hb) as Hnow.
  destruct e as [addr|i data|i|i|i rs|key alert|alert| |];
    simpl; rewrite ?get_status_state; try done.
  - unfold on_connection, deadline_bound. simpl.
    eapply deadline_bound_insert; [done..|simpl; lia].
  - destruct data as [wid legacy|sym| | |]; simpl; try done.
    + unfold on_register.
      destruct (clients_get st i) as [c|] eqn:Hc; [|done].
      apply clients_get_Some in Hc as [_ Hc]. apply Hb in Hc.
      destruct (truthy_key wid).
      { unfold deadline_bound. simpl.
        eapply deadline_bound_insert; [done..|simpl; lia]. }
      destruct legacy; [|done].
      unfold deadline_bound. simpl.
      eapply deadline_bound_insert; [done..|simpl; lia].
    + unfold on_subscribe.
      destruct (clients_get st i) as [c|] eqn:Hc; [|done].
      apply clients_get_Some in Hc as [_ Hc]. apply Hb in Hc.
      unfold deadline_bound. simpl.
      eapply deadline_bound_insert; [done..|simpl; lia].
    + unfold on_clear_session.
      destruct (clients_get st i) as [c|] eqn:Hc; [|done].
      unfold deadline_bound. simpl.
      eapply deadline_bound_insert; [done..|simpl; lia].
  - unfold on_close. by destruct (clients_get st i).
  - unfold on_error. by destruct (clients_get st i).
  - unfold post_webhook_alert.
    destruct (webhookClients st !! KStr key); [|done]. by case_decide.
Qed.

Lemma run_deadline_bound tr T st :
  chronological T tr → deadline_bound T st →
  deadline_bound (last_time T tr) (run tr st).
Proof.
  revert T st. induction tr as [|[t e] tr IH]; intros T st Hch Hb; [done|].
  destruct Hch as [HT Hch]. simpl. apply IH; [done|].
  by eapply step_deadline_bound.
Qed.

Lemma chronological_app T tr tr' :
  chronological T (tr ++ tr') ↔
  chronological T tr ∧ chronological (last_time T tr) tr'.
Proof.
  revert T. induction tr as [|[t e] tr IH]; intros T; simpl; [tauto|].
  rewrite IH. tauto.
Qed.

Lemma on_clear_session_get now i st c :
  clients_get st i = Some c →
  clients_get (on_clear_session now i st) i
    = Some (set_ignoreUntil (now + 10000) c).
Proof.
  intros Hc. unfold on_clear_session. rewrite Hc.
  apply clients_get_Some in Hc as [Hin _].
  unfold clients_get. simpl. rewrite decide_True by done.
  apply lookup_insert_eq.
Qed.

(** C7: along a trace whose clock readings never decrease, handling a
    [clear_session] message never moves the connection's [ignoreUntil]
    backward; after two [clear_session] messages in succession the deadline
    is the later of the two deadlines. *)
Theorem clear_session_never_shortens_window tr t0 t1 t2 i client :
  let st := run tr init in
  let st1 := step t1 (Message i ClearSession) st in
  let st2 := step t2 (Message i ClearSession) st1 in
  chronological t0
    (tr ++ [(t1, Message i ClearSession); (t2, Message i ClearSession)]) →
  clients_get st i = Some client →
  ∃ c1 c2,
    clients_get st1 i = Some c1 ∧ clients_get st2 i = Some c2
    ∧ ignoreUntil client ≤ ignoreUntil c1
    ∧ ignoreUntil c1 ≤ ignoreUntil c2
    ∧ ignoreUntil c2 = Z.max (t1 + 10000) (t2 + 10000).
Proof.
  intros st st1 st2 Hch Hc.
  apply chronological_app in Hch as (Htr & H1 & H2 & _).
  assert (deadline_bound (last_time t0 tr) st) as Hb.
  { apply run_deadline_bound; [done|]. intros r c. simpl.
    by rewrite lookup_empty. }
  pose proof (on_clear_session_get t1 i st client Hc) as Hc1.
  pose proof (on_clear_session_get t2 i _ _ Hc1) as Hc2.
  apply clients_get_Some in Hc as [_ Hc]. apply Hb in Hc.
  eexists _, _. split_and!; [exact Hc1|exact Hc2|simpl; lia..].
Qed.

Lemma clear_session_never_shortens_window_witness :
  ∃ c1 c2,
    clients_get (step 100 (Message 1%nat ClearSession) (run two_clients init))
      1%nat = Some c1
    ∧ clients_get
        (step 250 (Message 1%nat ClearSession)
           (step 100 (Message 1%nat ClearSession) (run two_clients init)))
        1%nat = Some c2
    ∧ ignoreUntil client1 ≤ ignoreUntil c1
    ∧ ignoreUntil c1 ≤ ignoreUntil c2
    ∧ ignoreUntil c2 = Z.max (100 + 10000) (250 + 10000).
Proof.
  apply (clear_session_never_shortens_window two_clients 0 100 250 1%nat
           client1).
  - simpl. lia.
  - vm_compute. reflexivity.
Defined.

(** ** The status listing *)

Lemma step_clients_allocated now e st :
  clients_allocated st → clients_allocated (step now e st).
Proof.
  intros Hal. destruct e as [addr|i data|i|i|i rs|key alert|alert| |];
    simpl; rewrite ?get_status_state; try done.
  - intros j. unfold on_connection, clients_set. simpl.
    rewrite lookup_insert.
    destruct (decide (S (clientIdCounter st) = j)) as [|Hne]; [by eauto|].
    case_decide; [by apply Hal|].
    intros [Hj|Hj%list_elem_of_singleton]%elem_of_app; [by apply Hal|done].
  - destruct data as [wid legacy|sym| | |]; simpl; try done.
    + unfold on_register. destruct (clients_get st i); [|done].
      destruct (truthy_key wid).
      { intros j Hj. simpl in *. rewrite lookup_insert.
        case_decide; [by eauto|by apply Hal]. }
      destruct legacy; [|done].
      intros j Hj. simpl in *. rewrite lookup_insert.
      case_decide; [by eauto|by apply Hal].
    + unfold on_subscribe. destruct (clients_get st i); [|done].
      intros j Hj. simpl in *. rewrite lookup_insert.
      case_decide; [by eauto|by apply Hal].
    + unfold on_clear_session. destruct (clients_get st i); [|done].
      intros j Hj. simpl in *. rewrite lookup_insert.
      case_decide; [by eauto|by apply Hal].
  - unfold on_close. intros j.
    destruct (clients_get st i); simpl;
      intros [_ Hj]%list_elem_of_filter; by apply Hal.
  - unfold on_error. intros j.
    destruct (clients_get st i); simpl;
      intros [_ Hj]%list_elem_of_filter; by apply Hal.
  - unfold post_webhook_alert.
    destruct (webhookClients st !! KStr key); [|done]. by case_decide.
Qed.

Lemma run_clients_allocated tr : clients_allocated (run tr init).
Proof.
  induction tr as [|[t e] tr IH] using rev_ind.
  - intros i Hi. by apply elem_of_nil in Hi.
  - rewrite run_snoc. by apply step_clients_allocated.
Qed.

Lemma redact_throws k :
  redact k = None ↔ ∃ tag, k = Some (KOther tag).
Proof.
  unfold redact. destruct k as [[[|u s]|tag]|]; simpl; split;
    try done; try (by intros [? [=]]).
  intros _. by exists tag.
Qed.

Lemma summary_of_throws i c :
  summary_of i c = None ↔ ∃ tag, webhookId c = Some (KOther tag).
Proof.
  rewrite <- redact_throws. unfold summary_of.
  by destruct (redact (webhookId c)).
Qed.

Lemma snapshot_summarises (h : gmap nat ClientObj) (l : list nat) st ls :
  heap_ok h → (∀ i, i ∈ l → i ∈ clients st) → heap st = h →
  mapM (λ i, h !! i ≫= summary_of i) l = Some ls →
  Forall2 (summarises st) l ls.
Proof.
  intros Hok Hl Hh. revert ls. induction l as [|i l IH]; intros ls Hm.
  - injection Hm as <-. constructor.
  - simpl in Hm. destruct (h !! i) as [c|] eqn:Hc; [|done]. simpl in Hm.
    destruct (summary_of i c) as [s|] eqn:Hs; [|done]. simpl in Hm.
    destruct (mapM _ l) as [ls'|] eqn:Hm'; [|done].
    injection Hm as <-. constructor.
    + exists c. unfold clients_get.
      rewrite decide_True by (apply Hl; by left). rewrite Hh.
      destruct (Hok _ _ Hc) as [_ Hcid]. unfold summary_of in Hs.
      destruct (redact (webhookId c)) as [wid|] eqn:Hr; [|done].
      injection Hs as <-. simpl. by rewrite Hcid.
    + apply IH; [|done]. intros j Hj. apply Hl. by right.
Qed.

Lemma mapM_None_inv {A B} (f : A → option B) (l : list A) :
  mapM f l = None → ∃ x, x ∈ l ∧ f x = None.
Proof.
  induction l as [|x l IH]; [done|]. simpl.
  destruct (f x) as [y|] eqn:Hx; simpl.
  - destruct (mapM f l); [done|]. intros _.
    destruct IH as (z & Hz & Hfz); [done|]. exists z. split; [by right|done].
  - intros _. exists x. split; [by left|done].
Qed.

Lemma snapshot_Some_no_other_key st l :
  snapshot st = Some l → ¬ holds_other_key st.
Proof.
  unfold snapshot. intros Hm (i & c & tag & Hc & Hk).
  apply clients_get_Some in Hc as [Hin Hc].
  assert (is_Some (mapM (λ i, heap st !! i ≫= summary_of i) (clients st)))
    as Hs by by rewrite Hm.
  rewrite mapM_is_Some, Forall_forall in Hs.
  specialize (Hs i Hin). simpl in Hs. rewrite Hc in Hs. simpl in Hs.
  destruct Hs as [s Hs].
  assert (summary_of i c = None) as Hn
    by (apply summary_of_throws; by exists tag).
  congruence.
Qed.

Lemma snapshot_None_other_key st :
  clients_allocated st → snapshot st = None → holds_other_key st.
Proof.
  intros Hal (i & Hin & Hf)%mapM_None_inv. simpl in Hf.
  destruct (Hal i Hin) as [c Hc]. rewrite Hc in Hf. simpl in Hf.
  apply summary_of_throws in Hf as [tag Hk].
  exists i, c, tag. split; [|done]. unfold clients_get.
  by rewrite decide_True.
Qed.

Lemma get_status_cases now st :
  clients_allocated st →
  (holds_other_key st ∧ get_status now st = (st, RServerError))
  ∨ (¬ holds_other_key st
     ∧ ∃ l, snapshot st = Some l
            ∧ get_status now st
              = (st, RStatus (length (clients st)) (size (webhookClients st))
                       (size (legacyClients st)) l now)).
Proof.
  intros Hal. unfold get_status. destruct (snapshot st) as [l|] eqn:Hl.
  - right. split; [by eapply snapshot_Some_no_other_key|]. by exists l.
  - left. split; [by apply snapshot_None_other_key|done].
Qed.

(** C9, as the code has it.  When some connected client holds a
    [webhookId] that is not a string, the status request throws and answers
    with a server error: nothing is listed.  Otherwise the listing has one
    entry per connection of the primary map, in the map's order, made of the
    connection's id, connect time, symbol filter, legacy flag and redacted
    routing key; the entry type has no field for the transport handle.  The
    redacted key is null for a connection without a key; for a key that is a
    string it is the first 8 UTF-16 code units of the key (the whole key
    when it has at most 8) followed by three dots. *)
Theorem status_listing_truncates_key tr now :
  let st := run tr init in
  (holds_other_key st → get_status now st = (st, RServerError))
  ∧ (¬ holds_other_key st →
     ∃ l, get_status now st
            = (st, RStatus (length (clients st)) (size (webhookClients st))
                     (size (legacyClients st)) l now)
          ∧ Forall2 (summarises st) (clients st) l)
  ∧ redact None = Some None
  ∧ (∀ tag, redact (Some (KOther tag)) = None)
  ∧ ∀ k, k ≠ [] →
      ∃ p, redact (Some (KStr k)) = Some (Some (p ++ js "..."))
           ∧ p `prefix_of` k
           ∧ length p = (8 `min` length k)%nat.
Proof.
  intros st.
  pose proof (run_clients_allocated tr) as Hal. fold st in Hal.
  split_and!.
  - intros Ho. destruct (get_status_cases now st Hal) as [[_ E]|[Hn _]]; done.
  - intros Hn.
    destruct (get_status_cases now st Hal) as [[Ho _]|(_ & l & Hl & E)];
      [done|].
    exists l. split; [done|].
    apply (snapshot_summarises (heap st)); [apply run_heap_ok|done..].
  - done.
  - done.
  - intros k Hk. exists (take 8 k). split_and!.
    + by destruct k.
    + exists (drop 8 k). by rewrite take_drop.
    + apply length_take.
Qed.

Lemma status_listing_truncates_key_witness :
  get_status 9 (run other_key init) = (run other_key init, RServerError)
  ∧ (∃ l, get_status 9 (run two_clients init)
            = (run two_clients init, RStatus 2 1 1 l 9)
          ∧ Forall2 (summarises (run two_clients init)) [1%nat; 2%nat] l)
  ∧ ∃ p, redact (Some (KStr (js "0123456789abcdef")))
           = Some (Some (p ++ js "..."))
         ∧ p `prefix_of` js "0123456789abcdef"
         ∧ length p = (8 `min` length (js "0123456789abcdef"))%nat.
Proof.
  destruct (status_listing_truncates_key other_key 9) as (Herr & _).
  destruct (status_listing_truncates_key two_clients 9)
    as (_ & Hlist & _ & _ & Hredact).
  split_and!.
  - apply Herr. exists 1%nat. eexists _, 12345%N.
    split; vm_compute; reflexivity.
  - apply Hlist. eapply snapshot_Some_no_other_key. vm_compute. reflexivity.
  - apply Hredact. vm_compute. intros H. discriminate H.
Defined.

(** C9 as stated fails: the connection bound to the key ["abc123"] is listed
    with ["abc123..."], which begins with the full key. *)
Lemma status_listing_shows_short_key_in_full :
  webhookId <$> heap (run two_clients init) !! 1%nat
    = Some (Some (KStr (js "abc123")))
  ∧ fmap (M := list) sum_webhookId <$> snapshot (run two_clients init)
    = Some [Some (js "abc123..."); None]
  ∧ js "abc123..." = js "abc123" ++ js "...".
Proof. repeat split; vm_compute; reflexivity. Qed.

(** ** Index maintenance on register, close and error *)

Lemma bucket_add_lookup k r wc k' :
  bucket_add k r wc !! k' =
    if decide (k = k') then Some (default ∅ (wc !! k) ∪ {[r]}) else wc !! k'.
Proof.
  unfold bucket_add. rewrite lookup_alter.
  destruct (decide (k = k')) as [<-|Hne].
  - case_decide as Hs.
    + destruct Hs as [b Hb]. by rewrite Hb.
    + rewrite lookup_insert_eq.
      assert (wc !! k = None) as -> by by apply eq_None_not_Some.
      done.
  - case_decide; [done|]. by rewrite lookup_insert_ne.
Qed.

Lemma bucket_prune_remove_lookup k r wc k' b :
  bucket_prune k (bucket_remove k r wc) !! k' = Some b →
  if decide (k = k') then ∃ b0, wc !! k = Some b0 ∧ b = b0 ∖ {[r]} ∧ b ≠ ∅
  else wc !! k' = Some b.
Proof.
  unfold bucket_prune, bucket_remove. rewrite lookup_alter, decide_True by done.
  destruct (wc !! k) as [b0|] eqn:Hb0; simpl.
  - case_decide as Hsz.
    + rewrite lookup_delete. case_decide; [done|].
      by rewrite lookup_alter, decide_False.
    + rewrite lookup_alter. case_decide; subst.
      * rewrite Hb0. simpl. intros [= <-]. exists b0. split_and!; try done.
        intros He. apply Hsz. rewrite He. apply size_empty.
      * done.
  - rewrite lookup_alter. case_decide; subst; [by rewrite Hb0|done].
Qed.

(** Registering never takes a connection out of a bucket or out of the
    legacy set. *)
Lemma on_register_never_unbinds st i wid legacy r k :
  (r ∈ bucket st k → r ∈ bucket (on_register i wid legacy st) k)
  ∧ (r ∈ legacyClients st → r ∈ legacyClients (on_register i wid legacy st)).
Proof.
  unfold on_register, bucket.
  destruct (clients_get st i); [|done].
  destruct (truthy_key wid); simpl.
  - split; [|done]. rewrite bucket_add_lookup.
    case_decide; [subst; simpl|done]. set_solver.
  - destruct legacy; simpl; [|done]. split; [done|set_solver].
Qed.

(** Every handler except the [error] handler keeps the keyed table free of
    empty buckets. *)
Lemma step_no_empty_bucket now e st :
  (∀ i, e ≠ Error i) →
  no_empty_bucket st → no_empty_bucket (step now e st).
Proof.
  intros He Hne. destruct e as [addr|i data|i|i|i rs|key alert|alert| |];
    simpl; rewrite ?get_status_state; try done.
  - destruct data as [wid legacy|sym| | |]; simpl; try done.
    + unfold on_register. destruct (clients_get st i); [|done].
      destruct (truthy_key wid).
      { intros k b. simpl. rewrite bucket_add_lookup.
        case_decide; [|by apply Hne]. intros [= <-]. set_solver. }
      by destruct legacy.
    + unfold on_subscribe. by destruct (clients_get st i).
    + unfold on_clear_session. by destruct (clients_get st i).
  - unfold on_close. destruct (clients_get st i) as [c|]; [|done].
    destruct (truthy_key (webhookId c) && _); [|done].
    intros k b Hb. simpl in Hb.
    apply bucket_prune_remove_lookup in Hb.
    case_decide; [by destruct Hb as (? & _ & _ & ?)|by eapply Hne].
  - by destruct (He i).
  - unfold post_webhook_alert.
    destruct (webhookClients st !! KStr key); [|done]. by case_decide.
Qed.

(** The [error] handler takes the connection out of its bucket and leaves the
    bucket in the table, also when it was the last one. *)
Lemma on_error_keeps_bucket st i client k b :
  clients_get st i = Some client →
  webhookId client = Some k → k ≠ KStr [] →
  webhookClients st !! k = Some b →
  webhookClients (on_error i st) !! k = Some (b ∖ {[i]}).
Proof.
  intros Hc Hk Hne Hb. unfold on_error. rewrite Hc, Hk.
  apply truthy_key_Some in Hne. rewrite Hne. simpl.
  rewrite bool_decide_eq_true_2 by by rewrite Hb.
  simpl. unfold bucket_remove. by rewrite lookup_alter, decide_True, Hb.
Qed.

(** C1 (the code departs from it): after registering under ["a"] and then
    under ["b"] the connection is in both buckets, and an alert for the old
    key ["a"] is still sent to it; after registering as legacy and then under
    ["a"] it is in the legacy set and in the bucket of ["a"], with [isLegacy]
    false. *)
Theorem register_leaves_previous_index_entry :
  elements (bucket (run rebinding init) (KStr (js "a"))) = [1%nat]
  ∧ elements (bucket (run rebinding init) (KStr (js "b"))) = [1%nat]
  ∧ webhookId <$> heap (run rebinding init) !! 1%nat = Some (Some (KStr (js "b")))
  ∧ deliveredTo_of (post_webhook_alert 6000 (js "a") ethusd (run rebinding init)).2
    = 1%nat
  ∧ elements (legacyClients (run legacy_then_keyed init)) = [1%nat]
  ∧ elements (bucket (run legacy_then_keyed init) (KStr (js "a"))) = [1%nat]
  ∧ isLegacy <$> heap (run legacy_then_keyed init) !! 1%nat = Some false.
Proof. repeat split; vm_compute; reflexivity. Qed.

(** C2 (the code departs from it): a connection that registered under ["a"]
    and then under ["b"] and whose transport closes, or errors, is gone from
    the primary map and still sits in the bucket of ["a"]. *)
Theorem unregister_leaves_stale_index_entry :
  clients (run (rebinding ++ [(3, Close 1%nat)]) init) = []
  ∧ elements (bucket (run (rebinding ++ [(3, Close 1%nat)]) init) (KStr (js "a")))
    = [1%nat]
  ∧ clients (run (rebinding ++ [(3, Error 1%nat)]) init) = []
  ∧ elements (bucket (run (rebinding ++ [(3, Error 1%nat)]) init) (KStr (js "a")))
    = [1%nat].
Proof. repeat split; vm_compute; reflexivity. Qed.

(** C3 (the code departs from it): when the only connection of the bucket
    ["a"] goes away through the [error] handler, the empty bucket stays in
    the keyed table, also when the [close] event follows the [error] event;
    through the [close] handler alone it is removed. *)
Theorem error_handler_leaves_empty_bucket :
  elements <$> webhookClients (run (one_keyed ++ [(2, Error 1%nat)]) init)
                 !! KStr (js "a")
    = Some []
  ∧ elements
      <$> webhookClients
            (run (one_keyed ++ [(2, Error 1%nat); (3, Close 1%nat)]) init)
            !! KStr (js "a")
    = Some []
  ∧ webhookClients (run (one_keyed ++ [(2, Close 1%nat)]) init)
      !! KStr (js "a")
    = None.
Proof. repeat split; vm_compute; reflexivity. Qed.

(** ** Membership in the indexes, handler by handler *)

Set Warnings "-clear-no-such-hyp".

Lemma bucket_of_add k0 i wc k :
  default ∅ (bucket_add k0 i wc !! k)
    = if decide (k0 = k) then default ∅ (wc !! k) ∪ {[i]}
      else default ∅ (wc !! k).
Proof.
  rewrite bucket_add_lookup. case_decide; [by subst|done].
Qed.

Lemma bucket_of_remove k0 i wc k :
  default ∅ (bucket_remove k0 i wc !! k)
    = if decide (k0 = k) then default ∅ (wc !! k) ∖ {[i]}
      else default ∅ (wc !! k).
Proof.
  unfold bucket_remove. rewrite lookup_alter.
  case_decide; [subst|done].
  destruct (wc !! k); simpl; [done|]. set_solver.
Qed.

Lemma bucket_of_prune k0 wc k :
  default ∅ (bucket_prune k0 wc !! k) = default ∅ (wc !! k).
Proof.
  unfold bucket_prune. destruct (wc !! k0) as [b|] eqn:Hb; [|done].
  case_decide as Hsz; [|done].
  rewrite lookup_delete. case_decide; [subst|done].
  rewrite Hb. simpl. apply size_empty_iff in Hsz.
  by apply leibniz_equiv in Hsz.
Qed.

Lemma bucket_on_register i wid legacy st k r :
  r ∈ bucket (on_register i wid legacy st) k ↔
  r ∈ bucket st k
  ∨ (r = i ∧ wid = Some k ∧ k ≠ KStr [] ∧ is_Some (clients_get st i)).
Proof.
  unfold on_register, bucket.
  destruct (clients_get st i) as [c|] eqn:Hc.
  - destruct (truthy_key wid) eqn:Hw.
    + apply truthy_key_inv in Hw as (k0 & -> & Hk0). simpl.
      rewrite bucket_of_add. case_decide.
      * subst. rewrite elem_of_union, elem_of_singleton. naive_solver.
      * naive_solver.
    + assert (∀ k', wid = Some k' → k' ≠ KStr [] → False) as Hno.
      { intros k' -> Hk'. apply truthy_key_Some in Hk'. congruence. }
      destruct legacy; simpl; naive_solver.
  - split; [by left|]. intros [?|(_ & _ & _ & [? ?])]; done.
Qed.

Lemma legacy_on_register i wid legacy st r :
  r ∈ legacyClients (on_register i wid legacy st) ↔
  r ∈ legacyClients st
  ∨ (r = i ∧ truthy_key wid = false ∧ legacy = true
     ∧ is_Some (clients_get st i)).
Proof.
  unfold on_register.
  destruct (clients_get st i) as [c|] eqn:Hc.
  - destruct (truthy_key wid) eqn:Hw; simpl; [naive_solver|].
    destruct legacy; simpl; [|naive_solver].
    rewrite elem_of_union, elem_of_singleton. naive_solver.
  - split; [by left|]. intros [?|(_ & _ & _ & [? ?])]; done.
Qed.

Lemma bucket_on_close i st k r :
  r ∈ bucket (on_close i st) k ↔
  r ∈ bucket st k
  ∧ ¬ (r = i ∧ ∃ c, clients_get st i = Some c ∧ webhookId c = Some k
                    ∧ k ≠ KStr []).
Proof.
  unfold on_close, bucket.
  destruct (clients_get st i) as [c|] eqn:Hc; simpl; [|naive_solver].
  destruct (truthy_key (webhookId c)) eqn:Hw; simpl.
  - apply truthy_key_inv in Hw as (k0 & Hk0 & Hne). rewrite Hk0. simpl.
    case_bool_decide as Hhas; simpl.
    + rewrite bucket_of_prune, bucket_of_remove. case_decide.
      * subst. rewrite elem_of_difference, elem_of_singleton. naive_solver.
      * naive_solver.
    + assert (webhookClients st !! k0 = None) as Hnone
        by by apply eq_None_not_Some.
      split; [|naive_solver]. intros Hr. split; [done|].
      intros (-> & c' & [= <-] & Hk & _). rewrite Hk0 in Hk.
      injection Hk as ->. by rewrite Hnone in Hr.
  - split; [|naive_solver]. intros Hr. split; [done|].
    intros (_ & c' & [= <-] & Hk & Hne). rewrite Hk in Hw.
    apply truthy_key_Some in Hne. congruence.
Qed.

Lemma bucket_on_error i st k r :
  r ∈ bucket (on_error i st) k ↔
  r ∈ bucket st k
  ∧ ¬ (r = i ∧ ∃ c, clients_get st i = Some c ∧ webhookId c = Some k
                    ∧ k ≠ KStr []).
Proof.
  unfold on_error, bucket.
  destruct (clients_get st i) as [c|] eqn:Hc; simpl; [|naive_solver].
  destruct (truthy_key (webhookId c)) eqn:Hw; simpl.
  - apply truthy_key_inv in Hw as (k0 & Hk0 & Hne). rewrite Hk0. simpl.
    case_bool_decide as Hhas; simpl.
    + rewrite bucket_of_remove. case_decide.
      * subst. rewrite elem_of_difference, elem_of_singleton. naive_solver.
      * naive_solver.
    + assert (webhookClients st !! k0 = None) as Hnone
        by by apply eq_None_not_Some.
      split; [|naive_solver]. intros Hr. split; [done|].
      intros (-> & c' & [= <-] & Hk & _). rewrite Hk0 in Hk.
      injection Hk as ->. by rewrite Hnone in Hr.
  - split; [|naive_solver]. intros Hr. split; [done|].
    intros (_ & c' & [= <-] & Hk & Hne). rewrite Hk in Hw.
    apply truthy_key_Some in Hne. congruence.
Qed.

Lemma legacy_on_close i st r :
  r ∈ legacyClients (on_close i st) ↔
  r ∈ legacyClients st ∧ ¬ (r = i ∧ is_Some (clients_get st i)).
Proof.
  unfold on_close. destruct (clients_get st i) as [c|] eqn:Hc; simpl.
  - rewrite elem_of_difference, elem_of_singleton. naive_solver.
  - split; [|naive_solver]. intros Hr. split; [done|].
    by intros [_ [? ?]].
Qed.

Lemma legacy_on_error i st r :
  r ∈ legacyClients (on_error i st) ↔
  r ∈ legacyClients st ∧ ¬ (r = i ∧ is_Some (clients_get st i)).
Proof.
  unfold on_error. destruct (clients_get st i) as [c|] eqn:Hc; simpl.
  - rewrite elem_of_difference, elem_of_singleton. naive_solver.
  - split; [|naive_solver]. intros Hr. split; [done|].
    by intros [_ [? ?]].
Qed.

Lemma clients_on_close i st r :
  r ∈ clients (on_close i st) ↔ r ∈ clients st ∧ r ≠ i.
Proof.
  unfold on_close. destruct (clients_get st i); simpl;
    unfold clients_delete; rewrite list_elem_of_filter; tauto.
Qed.

Lemma clients_on_error i st r :
  r ∈ clients (on_error i st) ↔ r ∈ clients st ∧ r ≠ i.
Proof.
  unfold on_error. destruct (clients_get st i); simpl;
    unfold clients_delete; rewrite list_elem_of_filter; tauto.
Qed.

(** ** The registry under requests *)

Lemma step_request_registry now e st :
  is_request e = true → same_registry st (step now e st).
Proof.
  destruct e as [addr|i data|i|i|i rs|key alert|alert| |]; try done;
    intros _; simpl; rewrite ?get_status_state; try done.
  unfold post_webhook_alert.
  destruct (webhookClients st !! KStr key); [|done]. by case_decide.
Qed.

Lemma same_registry_clients_get st st' i :
  same_registry st st' → clients_get st' i = clients_get st i.
Proof.
  intros (Hh & Hc & _). unfold clients_get. by rewrite Hh, Hc.
Qed.

Lemma same_registry_bucket st st' k :
  same_registry st st' → bucket st' k = bucket st k.
Proof. intros (_ & _ & _ & Hw & _). unfold bucket. by rewrite Hw. Qed.

Lemma step_counter now e st :
  clientIdCounter (step now e st)
    = (clientIdCounter st + if is_connection e then 1 else 0)%nat.
Proof.
  destruct e as [addr|i data|i|i|i rs|key alert|alert| |]; simpl;
    rewrite ?get_status_state; try lia.
  - destruct data as [wid legacy|sym| | |]; simpl; try lia.
    + unfold on_register. destruct (clients_get st i); [|lia].
      destruct (truthy_key wid); [simpl; lia|]. destruct legacy; simpl; lia.
    + unfold on_subscribe. destruct (clients_get st i); simpl; lia.
    + unfold on_clear_session. destruct (clients_get st i); simpl; lia.
  - unfold on_close. destruct (clients_get st i); simpl; lia.
  - unfold on_error. destruct (clients_get st i); simpl; lia.
  - unfold post_webhook_alert.
    destruct (webhookClients st !! KStr key); [|simpl; lia].
    case_decide; simpl; lia.
Qed.

(** What a client message does to the store and to the primary map. *)
Lemma on_message_heap now i data st j :
  heap (on_message now i data st) !! j = heap st !! j
  ∨ (j = i ∧ ∃ c c', clients_get st i = Some c
       ∧ heap (on_message now i data st) !! j = Some c'
       ∧ ws c' = ws c ∧ cid c' = cid c ∧ ip c' = ip c
       ∧ connectedAt c' = connectedAt c).
Proof.
  destruct data as [wid legacy|sym| | |]; simpl; try by left.
  - unfold on_register. destruct (clients_get st i) as [c|] eqn:Hc; [|by left].
    destruct (truthy_key wid).
    { simpl. rewrite lookup_insert. case_decide; [|by left].
      right. split; [done|]. by eexists _, _. }
    destruct legacy; [|by left].
    simpl. rewrite lookup_insert. case_decide; [|by left].
    right. split; [done|]. by eexists _, _.
  - unfold on_subscribe. destruct (clients_get st i) as [c|] eqn:Hc; [|by left].
    simpl. rewrite lookup_insert. case_decide; [|by left].
    right. split; [done|]. by eexists _, _.
  - unfold on_clear_session.
    destruct (clients_get st i) as [c|] eqn:Hc; [|by left].
    simpl. rewrite lookup_insert. case_decide; [|by left].
    right. split; [done|]. by eexists _, _.
Qed.

Lemma on_message_clients now i data st :
  clients (on_message now i data st) = clients st.
Proof.
  destruct data as [wid legacy|sym| | |]; simpl; try done.
  - unfold on_register. destruct (clients_get st i); [|done].
    destruct (truthy_key wid); [done|]. by destruct legacy.
  - unfold on_subscribe. by destruct (clients_get st i).
  - unfold on_clear_session. by destruct (clients_get st i).
Qed.

Lemma on_message_indexes now i data st :
  (∀ wid legacy, data ≠ Register wid legacy) →
  webhookClients (on_message now i data st) = webhookClients st
  ∧ legacyClients (on_message now i data st) = legacyClients st.
Proof.
  intros Hd. destruct data as [wid legacy|sym| | |]; simpl; try done.
  - by destruct (Hd wid legacy).
  - unfold on_subscribe. by destruct (clients_get st i).
  - unfold on_clear_session. by destruct (clients_get st i).
Qed.

Lemma on_close_untouched i st :
  heap (on_close i st) = heap st ∧ sockets (on_close i st) = sockets st
  ∧ clientIdCounter (on_close i st) = clientIdCounter st.
Proof. unfold on_close. by destruct (clients_get st i). Qed.

Lemma on_error_untouched i st :
  heap (on_error i st) = heap st ∧ sockets (on_error i st) = sockets st
  ∧ clientIdCounter (on_error i st) = clientIdCounter st.
Proof. unfold on_error. by destruct (clients_get st i). Qed.

(** ** References come from the counter *)

Lemma step_refs_bounded now e st :
  refs_bounded (clientIdCounter st) st →
  refs_bounded (clientIdCounter (step now e st)) (step now e st).
Proof.
  intros (Hc & Hh & Hb & Hl).
  destruct (is_request e) eqn:Hreq.
  { destruct (step_request_registry now e st Hreq) as (Eh & Ec & En & Ew & El).
    unfold refs_bounded, bucket. rewrite Eh, Ec, En, Ew, El.
    by split_and!. }
  destruct e as [addr|i data|i|i|i rs|key alert|alert| |]; try done.
  - unfold refs_bounded, bucket. simpl. split_and!.
    + intros j. unfold clients_set. case_decide.
      * intros Hj%Hc. lia.
      * intros [Hj%Hc|Hj%list_elem_of_singleton]%elem_of_app; lia.
    + intros j. rewrite lookup_insert. case_decide; [lia|].
      intros Hj%Hh. lia.
    + intros k j Hj. apply Hb in Hj. lia.
    + intros j Hj%Hl. lia.
  - rewrite step_counter. simpl. rewrite Nat.add_0_r. split_and!.
    + intros j. rewrite on_message_clients. apply Hc.
    + intros j Hj.
      destruct (on_message_heap now i data st j) as [E|(-> & c & c' & Hg & _)].
      * rewrite E in Hj. by apply Hh.
      * apply clients_get_Some in Hg as [Hin _]. by apply Hc.
    + intros k j. destruct data as [wid legacy|sym| | |];
        try (match goal with
             | |- context [on_message now i ?d st] =>
                 destruct (on_message_indexes now i d st) as [E _];
                 [by intros ?? [=]|]
             end; unfold bucket; rewrite E; apply Hb).
      simpl. rewrite bucket_on_register.
      intros [Hj|(-> & _ & _ & [c Hg])]; [by eapply Hb|].
      apply clients_get_Some in Hg as [Hin _]. by apply Hc.
    + intros j. destruct data as [wid legacy|sym| | |];
        try (match goal with
             | |- context [on_message now i ?d st] =>
                 destruct (on_message_indexes now i d st) as [_ E];
                 [by intros ?? [=]|]
             end; rewrite E; apply Hl).
      simpl. rewrite legacy_on_register.
      intros [Hj|(-> & _ & _ & [c Hg])]; [by apply Hl|].
      apply clients_get_Some in Hg as [Hin _]. by apply Hc.
  - simpl. destruct (on_close_untouched i st) as (Eh & _ & En).
    rewrite En. split_and!.
    + intros j [Hj _]%clients_on_close. by apply Hc.
    + intros j. rewrite Eh. apply Hh.
    + intros k j [Hj _]%bucket_on_close. by eapply Hb.
    + intros j [Hj _]%legacy_on_close. by apply Hl.
  - simpl. destruct (on_error_untouched i st) as (Eh & _ & En).
    rewrite En. split_and!.
    + intros j [Hj _]%clients_on_error. by apply Hc.
    + intros j. rewrite Eh. apply Hh.
    + intros k j [Hj _]%bucket_on_error. by eapply Hb.
    + intros j [Hj _]%legacy_on_error. by apply Hl.
Qed.

Lemma run_refs_bounded tr :
  refs_bounded (clientIdCounter (run tr init)) (run tr init).
Proof.
  induction tr as [|[t e] tr IH] using rev_ind.
  - split_and!; simpl.
    + by intros i ?%elem_of_nil.
    + intros i. rewrite lookup_empty. by intros [? ?].
    + intros k i. unfold bucket. simpl. rewrite lookup_empty. simpl.
      by intros ?%not_elem_of_empty.
    + by intros i ?%not_elem_of_empty.
  - rewrite run_snoc. by apply step_refs_bounded.
Qed.

Lemma run_counter tr :
  clientIdCounter (run tr init)
    = length (filter (λ te, is_connection te.2 = true) tr).
Proof.
  induction tr as [|[t e] tr IH] using rev_ind; [done|].
  rewrite run_snoc, step_counter, IH, filter_app, length_app. simpl.
  rewrite filter_cons, filter_nil. simpl.
  destruct (is_connection e); simpl; [done|lia].
Qed.

(** ** The current binding of a connected client is indexed *)

Lemma clients_get_update st st' i0 c' i :
  clients st' = clients st → heap st' = <[i0 := c']> (heap st) →
  i0 ∈ clients st →
  clients_get st' i = if decide (i = i0) then Some c' else clients_get st i.
Proof.
  intros Hc Hh Hin. unfold clients_get. rewrite Hc, Hh, lookup_insert.
  destruct (decide (i = i0)) as [->|Hne].
  - by rewrite decide_True, decide_True.
  - by rewrite (decide_False (P := i0 = i)).
Qed.

Lemma clients_get_on_connection now addr st i :
  i ≠ S (clientIdCounter st) →
  clients_get (on_connection now addr st) i = clients_get st i.
Proof.
  intros Hne. unfold clients_get, on_connection, clients_set. simpl.
  rewrite lookup_insert_ne by done.
  destruct (decide (S (clientIdCounter st) ∈ clients st)); [done|].
  destruct (decide (i ∈ clients st)) as [Hi|Hi].
  - rewrite decide_True; [done|]. apply elem_of_app. by left.
  - rewrite decide_False; [done|].
    intros [?|?%list_elem_of_singleton]%elem_of_app; done.
Qed.

Lemma clients_get_on_close i0 st i :
  clients_get (on_close i0 st) i
    = if decide (i = i0) then None else clients_get st i.
Proof.
  destruct (on_close_untouched i0 st) as (Eh & _).
  unfold clients_get. rewrite Eh.
  destruct (decide (i = i0)) as [->|Hne].
  - rewrite decide_False; [done|]. rewrite clients_on_close. tauto.
  - destruct (decide (i ∈ clients st)) as [Hi|Hi].
    + rewrite decide_True; [done|]. by rewrite clients_on_close.
    + rewrite decide_False; [done|]. rewrite clients_on_close. tauto.
Qed.

Lemma clients_get_on_error i0 st i :
  clients_get (on_error i0 st) i
    = if decide (i = i0) then None else clients_get st i.
Proof.
  destruct (on_error_untouched i0 st) as (Eh & _).
  unfold clients_get. rewrite Eh.
  destruct (decide (i = i0)) as [->|Hne].
  - rewrite decide_False; [done|]. rewrite clients_on_error. tauto.
  - destruct (decide (i ∈ clients st)) as [Hi|Hi].
    + rewrite decide_True; [done|]. by rewrite clients_on_error.
    + rewrite decide_False; [done|]. rewrite clients_on_error. tauto.
Qed.

Lemma clients_get_on_register i0 wid legacy st c0 i :
  clients_get st i0 = Some c0 →
  clients_get (on_register i0 wid legacy st) i =
    if decide (i = i0) then
      Some (if truthy_key wid then set_binding wid false c0
            else if legacy then set_binding None true c0 else c0)
    else clients_get st i.
Proof.
  intros Hc0. pose proof Hc0 as [Hin _]%clients_get_Some.
  unfold on_register. rewrite Hc0.
  destruct (truthy_key wid); [by apply clients_get_update|].
  destruct legacy; [by apply clients_get_update|].
  case_decide; by subst.
Qed.

Lemma clients_get_on_subscribe i0 sym st c0 i :
  clients_get st i0 = Some c0 →
  clients_get (on_subscribe i0 sym st) i =
    if decide (i = i0) then Some (set_symbol sym c0) else clients_get st i.
Proof.
  intros Hc0. pose proof Hc0 as [Hin _]%clients_get_Some.
  unfold on_subscribe. rewrite Hc0. by apply clients_get_update.
Qed.

Lemma clients_get_on_clear_session now i0 st c0 i :
  clients_get st i0 = Some c0 →
  clients_get (on_clear_session now i0 st) i =
    if decide (i = i0) then Some (set_ignoreUntil (now + 10000) c0)
    else clients_get st i.
Proof.
  intros Hc0. pose proof Hc0 as [Hin _]%clients_get_Some.
  unfold on_clear_session. rewrite Hc0. by apply clients_get_update.
Qed.

Lemma step_binding_indexed now e st :
  binding_indexed st → binding_indexed (step now e st).
Proof.
  intros Hinv.
  destruct (is_request e) eqn:Hreq.
  { pose proof (step_request_registry now e st Hreq) as Hsame.
    intros i c. rewrite (same_registry_clients_get _ _ _ Hsame).
    intros Hc. destruct (Hinv i c Hc) as [Hk Hl].
    destruct Hsame as (_ & _ & _ & Ew & El).
    unfold bucket. rewrite Ew, El. by split. }
  destruct e as [addr|i0 data|i0|i0|i0 rs|key alert|alert| |]; try done;
    simpl.
  - intros i c.
    destruct (decide (i = S (clientIdCounter st))) as [->|Hne].
    + unfold clients_get, on_connection. simpl. rewrite lookup_insert_eq.
      case_decide; [|done]. intros [= <-]. by split.
    + rewrite clients_get_on_connection by done. apply Hinv.
  - destruct data as [wid legacy|sym| | |]; simpl; try done.
    + destruct (clients_get st i0) as [c0|] eqn:Hc0;
        [|by unfold on_register; rewrite Hc0].
      intros i c. rewrite (clients_get_on_register _ _ _ _ c0) by done.
      destruct (decide (i = i0)) as [->|Hne].
      * intros [= <-]. destruct (truthy_key wid) eqn:Hw.
        -- apply truthy_key_inv in Hw as (k & -> & Hk). simpl. split; [|done].
           intros k' [= <-]. split_and!; [done..|].
           apply bucket_on_register. right. by rewrite Hc0.
        -- destruct legacy; simpl.
           ++ split; [done|]. intros _. split; [done|].
              apply legacy_on_register. right. by rewrite Hc0.
           ++ destruct (Hinv i0 c0 Hc0) as [Hk Hl]. split.
              ** intros k Hk0. destruct (Hk k Hk0) as (? & ? & ?).
                 split_and!; [done..|]. apply bucket_on_register. by left.
              ** intros Hl0. destruct (Hl Hl0). split; [done|].
                 apply legacy_on_register. by left.
      * intros Hc. destruct (Hinv i c Hc) as [Hk Hl]. split.
        -- intros k Hk0. destruct (Hk k Hk0) as (? & ? & ?).
           split_and!; [done..|]. apply bucket_on_register. by left.
        -- intros Hl0. destruct (Hl Hl0). split; [done|].
           apply legacy_on_register. by left.
    + destruct (clients_get st i0) as [c0|] eqn:Hc0;
        [|by unfold on_subscribe; rewrite Hc0].
      intros i c. rewrite (clients_get_on_subscribe _ _ _ c0) by done.
      assert (∀ k, bucket (on_subscribe i0 sym st) k = bucket st k) as Eb
        by (intros k; unfold on_subscribe; by rewrite Hc0).
      assert (legacyClients (on_subscribe i0 sym st) = legacyClients st)
        as El by (unfold on_subscribe; by rewrite Hc0).
      setoid_rewrite Eb. rewrite El.
      case_decide; [subst; intros [= <-]; by apply (Hinv i0 c0)|apply Hinv].
    + destruct (clients_get st i0) as [c0|] eqn:Hc0;
        [|by unfold on_clear_session; rewrite Hc0].
      intros i c. rewrite (clients_get_on_clear_session _ _ _ c0) by done.
      assert (∀ k, bucket (on_clear_session now i0 st) k = bucket st k) as Eb
        by (intros k; unfold on_clear_session; by rewrite Hc0).
      assert (legacyClients (on_clear_session now i0 st) = legacyClients st)
        as El by (unfold on_clear_session; by rewrite Hc0).
      setoid_rewrite Eb. rewrite El.
      case_decide; [subst; intros [= <-]; by apply (Hinv i0 c0)|apply Hinv].
  - intros i c. rewrite clients_get_on_close.
    case_decide as Hne; [done|]. intros Hc.
    destruct (Hinv i c Hc) as [Hk Hl]. split.
    + intros k Hk0. destruct (Hk k Hk0) as (? & ? & ?).
      split_and!; [done..|]. apply bucket_on_close. split; [done|].
      by intros [? _].
    + intros Hl0. destruct (Hl Hl0). split; [done|].
      apply legacy_on_close. split; [done|]. by intros [? _].
  - intros i c. rewrite clients_get_on_error.
    case_decide as Hne; [done|]. intros Hc.
    destruct (Hinv i c Hc) as [Hk Hl]. split.
    + intros k Hk0. destruct (Hk k Hk0) as (? & ? & ?).
      split_and!; [done..|]. apply bucket_on_error. split; [done|].
      by intros [? _].
    + intros Hl0. destruct (Hl Hl0). split; [done|].
      apply legacy_on_error. split; [done|]. by intros [? _].
Qed.

Lemma run_binding_indexed tr : binding_indexed (run tr init).
Proof.
  induction tr as [|[t e] tr IH] using rev_ind.
  - intros i c [Hin _]%clients_get_Some. by apply elem_of_nil in Hin.
  - rewrite run_snoc. by apply step_binding_indexed.
Qed.

Lemma on_message_sockets now i data st j :
  j ≠ i → sockets (on_message now i data st) !! j = sockets st !! j.
Proof.
  intros Hne. destruct data as [wid legacy|sym| | |]; simpl; try done.
  - unfold on_register. destruct (clients_get st i); [|done].
    destruct (truthy_key wid);
      [simpl; unfold socket_send; by rewrite lookup_alter_ne|].
    destruct legacy; [|done].
    simpl. unfold socket_send. by rewrite lookup_alter_ne.
  - unfold on_subscribe. by destruct (clients_get st i).
  - unfold socket_send. by rewrite lookup_alter_ne.
  - unfold on_clear_session. destruct (clients_get st i); [|done].
    simpl. unfold socket_send. by rewrite lookup_alter_ne.
Qed.

Lemma clients_delete_absent i l : i ∉ l → clients_delete i l = l.
Proof.
  intros Hi. unfold clients_delete. induction l as [|x l IH]; [done|].
  apply not_elem_of_cons in Hi as [Hx Hl].
  rewrite filter_cons_True by done. by rewrite IH.
Qed.

Lemma on_close_absent i st : i ∉ clients st → on_close i st = st.
Proof.
  intros Hi. unfold on_close, clients_get. rewrite decide_False by done.
  rewrite clients_delete_absent by done. by destruct st.
Qed.

Lemma on_error_absent i st : i ∉ clients st → on_error i st = st.
Proof.
  intros Hi. unfold on_error, clients_get. rewrite decide_False by done.
  rewrite clients_delete_absent by done. by destruct st.
Qed.

(** ** Connection ids *)

(** X1: connection ids come from a counter that counts the connections made
    so far and is never reset: the primary map never holds more entries than
    that, and the id the next connection gets is held by no client object,
    no entry of the primary map, no bucket and not by the legacy set, so a
    new connection never takes over the state of an older one. *)
Theorem connection_ids_are_fresh tr :
  let st := run tr init in
  clientIdCounter st = length (filter (λ te, is_connection te.2 = true) tr)
  ∧ (length (clients st) ≤ clientIdCounter st)%nat
  ∧ heap st !! S (clientIdCounter st) = None
  ∧ (S (clientIdCounter st) ∉ clients st)
  ∧ (∀ k, S (clientIdCounter st) ∉ bucket st k)
  ∧ (S (clientIdCounter st) ∉ legacyClients st).
Proof.
  intros st. destruct (run_refs_bounded tr) as (Hc & Hh & Hb & Hl).
  fold st in Hc, Hh, Hb, Hl. split_and!.
  - apply run_counter.
  - transitivity (length (seq 1 (clientIdCounter st)));
      [|by rewrite length_seq].
    apply submseteq_length, NoDup_submseteq; [apply run_clients_NoDup|].
    intros i Hi%Hc. apply elem_of_seq. lia.
  - apply eq_None_not_Some. intros Hs%Hh. lia.
  - intros Hi%Hc. lia.
  - intros k Hi%Hb. lia.
  - intros Hi%Hl. lia.
Qed.

(** X2: an index entry appears only through the connection's own [register]
    message: when a reference enters the bucket of a key, the event was a
    [register] with that key sent by that connection, and when it enters the
    legacy set, a [register] with the legacy flag and no key; the connection
    was in the primary map.  No other event and no other connection binds
    it. *)
Theorem index_entry_only_by_own_register now e st r :
  (∀ k, r ∉ bucket st k → r ∈ bucket (step now e st) k →
     ∃ legacy, e = Message r (Register (Some k) legacy) ∧ k ≠ KStr []
               ∧ r ∈ clients st)
  ∧ (r ∉ legacyClients st → r ∈ legacyClients (step now e st) →
     ∃ wid, e = Message r (Register wid true) ∧ truthy_key wid = false
            ∧ r ∈ clients st).
Proof.
  destruct (is_request e) eqn:Hreq.
  { destruct (step_request_registry now e st Hreq) as (_ & _ & _ & Ew & El).
    unfold bucket. rewrite Ew, El. by split. }
  destruct e as [addr|i data|i|i|i rs|key alert|alert| |]; try done; simpl.
  - destruct data as [wid legacy|sym| | |].
    2-5: (match goal with
          | |- context [on_message ?n ?i ?d ?s] =>
              destruct (on_message_indexes n i d s) as [Ew El]
          end; [by intros ?? [=]|];
          unfold bucket; rewrite Ew, El; by split).
    simpl. split.
    + intros k Hn [?|(-> & -> & Hk & [c Hc])]%bucket_on_register; [done|].
      apply clients_get_Some in Hc as [Hin _]. by exists legacy.
    + intros Hn [?|(-> & Hw & -> & [c Hc])]%legacy_on_register; [done|].
      apply clients_get_Some in Hc as [Hin _]. by exists wid.
  - split.
    + by intros k Hn [? _]%bucket_on_close.
    + by intros Hn [? _]%legacy_on_close.
  - split.
    + by intros k Hn [? _]%bucket_on_error.
    + by intros Hn [? _]%legacy_on_error.
Qed.

Lemma index_entry_only_by_own_register_witness :
  ∃ legacy,
    Message 1%nat (Register (Some (KStr (js "k"))) false)
      = Message 1%nat (Register (Some (KStr (js "k"))) legacy)
    ∧ KStr (js "k") ≠ KStr [] ∧ 1%nat ∈ clients (run two_clients init).
Proof.
  destruct (index_entry_only_by_own_register 5
              (Message 1%nat (Register (Some (KStr (js "k"))) false))
              (run two_clients init) 1%nat) as [Hkeyed _].
  apply (Hkeyed (KStr (js "k"))).
  - vm_compute. intros H. discriminate H.
  - vm_compute. reflexivity.
Defined.

(** ** Messages *)

(** X3: a message changes the state of the connection that sent it and of no
    other: the client object and the socket of every other connection, the
    primary map and the counter stay as they were. *)
Theorem message_touches_own_connection_only now i data st j :
  j ≠ i →
  heap (on_message now i data st) !! j = heap st !! j
  ∧ sockets (on_message now i data st) !! j = sockets st !! j
  ∧ clients_get (on_message now i data st) j = clients_get st j
  ∧ clients (on_message now i data st) = clients st
  ∧ clientIdCounter (on_message now i data st) = clientIdCounter st.
Proof.
  intros Hne.
  assert (heap (on_message now i data st) !! j = heap st !! j) as Hh.
  { by destruct (on_message_heap now i data st j) as [E|[? _]]. }
  split_and!.
  - done.
  - by apply on_message_sockets.
  - unfold clients_get. by rewrite on_message_clients, Hh.
  - apply on_message_clients.
  - pose proof (step_counter now (Message i data) st) as Hn.
    simpl in Hn. lia.
Qed.

Lemma message_touches_own_connection_only_witness :
  heap (on_message 9 1%nat (Subscribe (Some "ETHUSD")) (run two_clients init))
    !! 2%nat = Some client2
  ∧ sockets (on_message 9 1%nat ClearSession (run two_clients init)) !! 2%nat
    = Some socket2.
Proof.
  split.
  - destruct (message_touches_own_connection_only 9 1%nat
                (Subscribe (Some "ETHUSD")) (run two_clients init) 2%nat)
      as [Hh _]; [lia|].
    rewrite Hh. vm_compute. reflexivity.
  - destruct (message_touches_own_connection_only 9 1%nat ClearSession
                (run two_clients init) 2%nat) as (_ & Hs & _); [lia|].
    rewrite Hs. vm_compute. reflexivity.
Defined.



(** ** Unregistration *)

(** X5: unregistering is idempotent: a second [close] or [error] event of the
    same socket, and a [close] after an [error] or an [error] after a
    [close], change nothing. *)
Theorem unregister_is_idempotent i st :
  on_close i (on_close i st) = on_close i st
  ∧ on_error i (on_error i st) = on_error i st
  ∧ on_close i (on_error i st) = on_error i st
  ∧ on_error i (on_close i st) = on_close i st.
Proof.
  assert (i ∉ clients (on_close i st)) as Hc
    by (rewrite clients_on_close; tauto).
  assert (i ∉ clients (on_error i st)) as He
    by (rewrite clients_on_error; tauto).
  split_and!.
  - by apply on_close_absent.
  - by apply on_error_absent.
  - by apply on_close_absent.
  - by apply on_error_absent.
Qed.

(** X6: the [close] and the [error] handler take a connected client out of
    the primary map, out of the legacy set and out of the bucket of the key
    it is currently registered under; afterwards the primary map has no
    entry for its id. *)
Theorem unregister_retracts_current_binding i st c :
  clients_get st i = Some c →
  ((i ∉ clients (on_close i st))
   ∧ clients_get (on_close i st) i = None
   ∧ (i ∉ legacyClients (on_close i st))
   ∧ ∀ k, webhookId c = Some k → k ≠ KStr [] → i ∉ bucket (on_close i st) k)
  ∧ ((i ∉ clients (on_error i st))
     ∧ clients_get (on_error i st) i = None
     ∧ (i ∉ legacyClients (on_error i st))
     ∧ ∀ k, webhookId c = Some k → k ≠ KStr [] → i ∉ bucket (on_error i st) k).
Proof.
  intros Hc. split; split_and!.
  - rewrite clients_on_close. tauto.
  - rewrite clients_get_on_close. by rewrite decide_True.
  - rewrite legacy_on_close. intros [_ Hn]. apply Hn. by rewrite Hc.
  - intros k Hk Hne. rewrite bucket_on_close. intros [_ Hn]. apply Hn.
    split; [done|]. by exists c.
  - rewrite clients_on_error. tauto.
  - rewrite clients_get_on_error. by rewrite decide_True.
  - rewrite legacy_on_error. intros [_ Hn]. apply Hn. by rewrite Hc.
  - intros k Hk Hne. rewrite bucket_on_error. intros [_ Hn]. apply Hn.
    split; [done|]. by exists c.
Qed.

Lemma unregister_retracts_current_binding_witness :
  (1%nat ∉ clients (on_close 1%nat (run two_clients init)))
  ∧ (1%nat ∉ bucket (on_close 1%nat (run two_clients init)) (KStr (js "abc123")))
  ∧ (2%nat ∉ legacyClients (on_error 2%nat (run two_clients init))).
Proof.
  assert (clients_get (run two_clients init) 1%nat = Some client1) as H1
    by (vm_compute; reflexivity).
  assert (clients_get (run two_clients init) 2%nat = Some client2) as H2
    by (vm_compute; reflexivity).
  destruct (unregister_retracts_current_binding _ _ _ H1)
    as [(Hc & _ & _ & Hb) _].
  destruct (unregister_retracts_current_binding _ _ _ H2)
    as [_ (_ & _ & Hl & _)].
  split_and!; [exact Hc| |exact Hl].
  apply Hb; [reflexivity|]. intros H. discriminate H.
Defined.

(** X7: unregistering one connection leaves every other connection where it
    is: its entry of the primary map, its membership of every bucket and of
    the legacy set, and its client object and socket. *)
Theorem unregister_leaves_other_connections i st j :
  j ≠ i →
  (clients_get (on_close i st) j = clients_get st j
   ∧ (j ∈ clients (on_close i st) ↔ j ∈ clients st)
   ∧ (∀ k, j ∈ bucket (on_close i st) k ↔ j ∈ bucket st k)
   ∧ (j ∈ legacyClients (on_close i st) ↔ j ∈ legacyClients st)
   ∧ sockets (on_close i st) = sockets st)
  ∧ (clients_get (on_error i st) j = clients_get st j
     ∧ (j ∈ clients (on_error i st) ↔ j ∈ clients st)
     ∧ (∀ k, j ∈ bucket (on_error i st) k ↔ j ∈ bucket st k)
     ∧ (j ∈ legacyClients (on_error i st) ↔ j ∈ legacyClients st)
     ∧ sockets (on_error i st) = sockets st).
Proof.
  intros Hne. split; split_and!.
  - rewrite clients_get_on_close. by rewrite decide_False.
  - rewrite clients_on_close. tauto.
  - intros k. rewrite bucket_on_close. tauto.
  - rewrite legacy_on_close. tauto.
  - apply on_close_untouched.
  - rewrite clients_get_on_error. by rewrite decide_False.
  - rewrite clients_on_error. tauto.
  - intros k. rewrite bucket_on_error. tauto.
  - rewrite legacy_on_error. tauto.
  - apply on_error_untouched.
Qed.

Lemma unregister_leaves_other_connections_witness :
  clients_get (on_close 1%nat (run two_clients init)) 2%nat = Some client2
  ∧ 2%nat ∈ legacyClients (on_close 1%nat (run two_clients init)).
Proof.
  destruct (unregister_leaves_other_connections 1%nat (run two_clients init)
              2%nat) as [(Hg & _ & _ & Hl & _) _]; [lia|].
  split.
  - rewrite Hg. vm_compute. reflexivity.
  - apply Hl. vm_compute. reflexivity.
Defined.

(** X8: as long as no socket emits [error], the keyed table holds no empty
    bucket: registering creates a bucket with its first member and [close]
    removes a bucket with its last member. *)
Theorem no_empty_bucket_without_error tr :
  (∀ te, te ∈ tr → is_error te.2 = false) →
  no_empty_bucket (run tr init).
Proof.
  induction tr as [|[t e] tr IH] using rev_ind; intros Hne.
  - intros k b. simpl. by rewrite lookup_empty.
  - rewrite run_snoc. apply step_no_empty_bucket.
    + intros i ->. specialize (Hne (t, Error i)). simpl in Hne.
      assert (true = false) as Hf; [|done].
      apply Hne. apply elem_of_app. right. by apply list_elem_of_singleton.
    + apply IH. intros te Hte. apply Hne. apply elem_of_app. by left.
Qed.

Lemma no_empty_bucket_without_error_witness :
  no_empty_bucket (run one_closed init).
Proof.
  apply no_empty_bucket_without_error.
  intros te Hte. unfold one_closed, two_clients in Hte. simpl in Hte.
  repeat (apply elem_of_cons in Hte as [->|Hte]; [reflexivity|]).
  by apply elem_of_nil in Hte.
Defined.

(** ** Bindings and delivery *)

(** X9: in every reachable state the fields of a connected client agree with
    the indexes.  If its [webhookId] is set, the key is not empty, the client
    is not flagged legacy and it is in the bucket of that key; if it is
    flagged legacy, it has no [webhookId] and is in the legacy set. *)
Theorem connected_client_binding_is_indexed tr i c :
  let st := run tr init in
  clients_get st i = Some c →
  (∀ k, webhookId c = Some k →
     k ≠ KStr [] ∧ isLegacy c = false ∧ i ∈ bucket st k)
  ∧ (isLegacy c = true → webhookId c = None ∧ i ∈ legacyClients st).
Proof. intros st Hc. by apply (run_binding_indexed tr). Qed.

Lemma connected_client_binding_is_indexed_witness :
  1%nat ∈ bucket (run rebinding init) (KStr (js "b")).
Proof.
  assert (clients_get (run rebinding init) 1%nat
          = Some (set_binding (Some (KStr (js "b"))) false
                    {| ws := 1; cid := 1; ip := "10.0.0.1"; connectedAt := 0;
                       symbol := None; webhookId := Some (KStr (js "a"));
                       isLegacy := false; ignoreUntil := 5000 |})) as Hc
    by (vm_compute; reflexivity).
  destruct (connected_client_binding_is_indexed _ _ _ Hc) as [Hk _].
  by destruct (Hk (KStr (js "b")) eq_refl) as (_ & _ & Hin).
Defined.

(** X10: a connected client is served on the path it last registered for.
    With an open socket and its ignore window elapsed, a client whose
    [webhookId] is [k] is sent every alert posted for [k], and a client
    flagged legacy is sent every legacy alert that its symbol filter does not
    reject. *)
Theorem registered_connection_is_served tr now alert i c w :
  let st := run tr init in
  clients_get st i = Some c →
  sockets st !! i = Some w →
  readyState w = OPEN →
  ignoreUntil c ≤ now →
  (∀ k, webhookId c = Some (KStr k) →
     sockets (post_webhook_alert now k alert st).1 !! i
       = Some (ws_send (FAlert alert (Some k) false now) w))
  ∧ (isLegacy c = true → symbol_mismatch alert c = false →
     sockets (post_alert now alert st).1 !! i
       = Some (ws_send (FAlert alert None true now) w)).
Proof.
  intros st Hc Hw Hopen Hle.
  pose proof (run_heap_ok tr) as Hok. fold st in Hok.
  destruct (run_binding_indexed tr i c Hc) as [Hk Hl].
  apply clients_get_Some in Hc as [_ Hc].
  destruct (Hok _ _ Hc) as [Hws _].
  pose proof (in_ignore_window_false _ _ Hle) as Hwin.
  assert (ws_is_open (sockets st) c = true) as Ho.
  { apply (ws_is_open_lookup _ _ w); [by rewrite Hws|done]. }
  split.
  - intros k Hkey. destruct (Hk (KStr k) Hkey) as (_ & _ & Hin).
    rewrite post_webhook_alert_socket by done.
    rewrite decide_True by done.
    unfold receives, keyed_accept. by rewrite Hc, Hwin, Ho, Hw.
  - intros Hleg Hsym. destruct (Hl Hleg) as [_ Hin].
    rewrite post_alert_socket by done. rewrite decide_True by done.
    unfold receives, legacy_accept. by rewrite Hc, Hwin, Hsym, Ho, Hw.
Qed.

Lemma registered_connection_is_served_witness :
  sockets (post_webhook_alert 7000 (js "abc123") ethusd (run two_clients init)).1
    !! 1%nat
    = Some (ws_send (FAlert ethusd (Some (js "abc123")) false 7000) socket1)
  ∧ sockets (post_alert 7000 no_symbol (run two_clients init)).1 !! 2%nat
    = Some (ws_send (FAlert no_symbol None true 7000) socket2).
Proof.
  assert (clients_get (run two_clients init) 1%nat = Some client1) as H1
    by (vm_compute; reflexivity).
  assert (clients_get (run two_clients init) 2%nat = Some client2) as H2
    by (vm_compute; reflexivity).
  assert (sockets (run two_clients init) !! 1%nat = Some socket1) as W1
    by (vm_compute; reflexivity).
  assert (sockets (run two_clients init) !! 2%nat = Some socket2) as W2
    by (vm_compute; reflexivity).
  split.
  - destruct (registered_connection_is_served two_clients 7000 ethusd
                1%nat client1 socket1 H1 W1 eq_refl) as [Hk _];
      [simpl; lia|].
    by apply Hk.
  - destruct (registered_connection_is_served two_clients 7000 no_symbol
                2%nat client2 socket2 H2 W2 eq_refl) as [_ Hl];
      [simpl; lia|].
    by apply Hl.
Defined.

(** X11: a keyed alert stays inside the bucket of its key.  The endpoint
    changes nothing of the registry; a socket outside the bucket is not
    touched, and a socket inside it is either not touched or sent the alert
    exactly once. *)
Theorem keyed_alert_stays_in_its_bucket tr now key alert r :
  let st := run tr init in
  let st' := (post_webhook_alert now key alert st).1 in
  same_registry st st'
  ∧ (r ∉ bucket st (KStr key) → sockets st' !! r = sockets st !! r)
  ∧ (sockets st' !! r = sockets st !! r
     ∨ ∃ w, sockets st !! r = Some w
            ∧ sockets st' !! r
              = Some (ws_send (FAlert alert (Some key) false now) w)).
Proof.
  intros st st'. pose proof (run_heap_ok tr) as Hok. fold st in Hok.
  split_and!.
  - apply (step_request_registry now (PostWebhookAlert key alert) st eq_refl).
  - intros Hn. unfold st'. rewrite post_webhook_alert_socket by done.
    by rewrite decide_False.
  - unfold st'. rewrite post_webhook_alert_socket by done.
    case_decide; [|by left].
    destruct (receives _ _ _ _); [|by left].
    destruct (sockets st !! r) as [w|]; [|by left].
    right. by exists w.
Qed.

(** X12: a legacy alert stays inside the legacy set.  The endpoint changes
    nothing of the registry; the socket of a connection outside the legacy
    set, such as one that only registered a key, is not touched, and a socket
    inside it is either not touched or sent the alert exactly once. *)
Theorem legacy_alert_stays_in_legacy_set tr now alert r :
  let st := run tr init in
  let st' := (post_alert now alert st).1 in
  same_registry st st'
  ∧ (r ∉ legacyClients st → sockets st' !! r = sockets st !! r)
  ∧ (sockets st' !! r = sockets st !! r
     ∨ ∃ w, sockets st !! r = Some w
            ∧ sockets st' !! r
              = Some (ws_send (FAlert alert None true now) w)).
Proof.
  intros st st'. pose proof (run_heap_ok tr) as Hok. fold st in Hok.
  split_and!.
  - apply (step_request_registry now (PostAlert alert) st eq_refl).
  - intros Hn. unfold st'. rewrite post_alert_socket by done.
    by rewrite decide_False.
  - unfold st'. rewrite post_alert_socket by done.
    case_decide; [|by left].
    destruct (receives _ _ _ _); [|by left].
    destruct (sockets st !! r) as [w|]; [|by left].
    right. by exists w.
Qed.

Lemma legacy_alert_stays_in_legacy_set_witness :
  sockets (post_alert 7000 no_symbol (run two_clients init)).1 !! 1%nat
    = Some socket1.
Proof.
  destruct (legacy_alert_stays_in_legacy_set two_clients 7000 no_symbol
              1%nat) as (_ & Hout & _).
  rewrite Hout; vm_compute; [reflexivity|]. intros H. discriminate H.
Defined.

Lemma keyed_alert_stays_in_its_bucket_witness :
  sockets (post_webhook_alert 7000 (js "abc123") ethusd (run two_clients init)).1
    !! 2%nat
    = Some socket2.
Proof.
  destruct (keyed_alert_stays_in_its_bucket two_clients 7000 (js "abc123") ethusd
              2%nat) as (_ & Hout & _).
  rewrite Hout; vm_compute; [reflexivity|]. intros H. discriminate H.
Defined.

(** ** Delivery counts *)

Lemma ws_send_neq m w : ws_send m w ≠ w.
Proof.
  intros E. apply (f_equal (λ x, length (sent x))) in E. simpl in E.
  rewrite length_app in E. simpl in E. lia.
Qed.

Lemma filter_length_ext {A} (P Q : A → Prop) `{!∀ x, Decision (P x)}
    `{!∀ x, Decision (Q x)} (l : list A) :
  (∀ x, x ∈ l → P x ↔ Q x) → length (filter P l) = length (filter Q l).
Proof.
  induction l as [|x l IH]; intros Hl; [done|].
  rewrite !filter_cons.
  assert (P x ↔ Q x) as Hx by (apply Hl; by left).
  assert (length (filter P l) = length (filter Q l)) as Hr
    by (apply IH; intros y Hy; apply Hl; by right).
  destruct (decide (P x)), (decide (Q x)); simpl; try tauto; by rewrite Hr.
Qed.

Lemma visit_loop_changed accept h m ss n l r :
  heap_ok h → NoDup l → r ∈ l →
  receives accept h ss r = true
  ↔ (visit_loop accept h m ss n l).1 !! r ≠ ss !! r.
Proof.
  intros Hok Hnd Hin. rewrite visit_loop_sockets by done.
  rewrite decide_True by done.
  destruct (receives accept h ss r) eqn:Hr; [|by split].
  split; [intros _|done].
  unfold receives in Hr. destruct (h !! r) as [c|] eqn:Hc; [|done].
  apply andb_true_iff in Hr as [_ Ho]. unfold ws_is_open in Ho.
  destruct (Hok _ _ Hc) as [Hws _]. rewrite Hws in Ho.
  destruct (ss !! r) as [w|]; [|done]. simpl.
  intros [= E]. by apply ws_send_neq in E.
Qed.

(** X13: the [deliveredTo] figure of a response is exact: it is the number of
    connections of the bucket, of the legacy set or of the primary map whose
    socket was sent the alert, so it never exceeds the size of that
    collection. *)
Theorem delivered_count_is_number_of_sends tr now key alert :
  let st := run tr init in
  (deliveredTo_of (post_webhook_alert now key alert st).2
     = length (filter (λ r, sockets (post_webhook_alert now key alert st).1 !! r
                            ≠ sockets st !! r)
                 (elements (bucket st (KStr key))))
   ∧ (deliveredTo_of (post_webhook_alert now key alert st).2
      ≤ size (bucket st (KStr key)))%nat)
  ∧ (deliveredTo_of (post_alert now alert st).2
       = length (filter (λ r, sockets (post_alert now alert st).1 !! r
                              ≠ sockets st !! r)
                   (elements (legacyClients st)))
     ∧ (deliveredTo_of (post_alert now alert st).2
        ≤ size (legacyClients st))%nat)
  ∧ (deliveredTo_of (get_test now st).2
       = length (filter (λ r, sockets (get_test now st).1 !! r
                              ≠ sockets st !! r)
                   (clients st))
     ∧ (deliveredTo_of (get_test now st).2 ≤ length (clients st))%nat).
Proof.
  intros st. pose proof (run_heap_ok tr) as Hok. fold st in Hok.
  pose proof (run_clients_NoDup tr) as Hnd. fold st in Hnd.
  split_and!.
  - rewrite post_webhook_alert_count. apply filter_length_ext.
    intros r Hr. rewrite post_webhook_alert_socket by done.
    rewrite decide_True by by apply elem_of_elements.
    rewrite (visit_loop_changed _ _ (FAlert alert (Some key) false now) _ 0%nat
               (elements (bucket st (KStr key))));
      [|done|apply NoDup_elements|done].
    by rewrite visit_loop_sockets, decide_True
      by (done || apply NoDup_elements).
  - rewrite post_webhook_alert_count. apply length_filter.
  - rewrite post_alert_count. apply filter_length_ext.
    intros r Hr. rewrite post_alert_socket by done.
    rewrite decide_True by by apply elem_of_elements.
    rewrite (visit_loop_changed _ _ (FAlert alert None true now) _ 0%nat
               (elements (legacyClients st)));
      [|done|apply NoDup_elements|done].
    by rewrite visit_loop_sockets, decide_True
      by (done || apply NoDup_elements).
  - rewrite post_alert_count. apply length_filter.
  - rewrite get_test_count. unfold open_clients. apply filter_length_ext.
    intros r Hr. rewrite get_test_socket by done.
    rewrite decide_True by done.
    rewrite (visit_loop_changed _ _ (FAlert testAlert None false now) _ 0%nat
               (clients st)); [|done..].
    by rewrite visit_loop_sockets, decide_True by done.
  - rewrite get_test_count. apply length_filter.
Qed.

(** ** Repeated messages *)


(** X15: only the last [subscribe] of a connection counts: a second
    subscription replaces the first, and a subscription without a symbol (or
    with an empty one) switches the filter off, so that no alert is rejected
    for its symbol any more. *)
Theorem last_subscription_wins i s1 s2 st c :
  clients_get st i = Some c →
  on_subscribe i s2 (on_subscribe i s1 st) = on_subscribe i s2 st
  ∧ clients_get (on_subscribe i s2 st) i = Some (set_symbol s2 c)
  ∧ (truthy s2 = false →
     ∀ alert, symbol_mismatch alert (set_symbol s2 c) = false).
Proof.
  intros Hc.
  pose proof (clients_get_on_subscribe i s1 st c i Hc) as Hc1.
  rewrite decide_True in Hc1 by done.
  split_and!.
  - unfold on_subscribe at 1. rewrite Hc1.
    unfold on_subscribe. rewrite Hc. simpl.
    by rewrite insert_insert_eq.
  - rewrite (clients_get_on_subscribe _ _ _ c) by done.
    by rewrite decide_True.
  - intros Hs alert. unfold symbol_mismatch. simpl. by rewrite Hs.
Qed.

Lemma last_subscription_wins_witness :
  on_subscribe 2%nat None
    (on_subscribe 2%nat (Some "ETHUSD") (run two_clients init))
    = on_subscribe 2%nat None (run two_clients init)
  ∧ symbol_mismatch ethusd (set_symbol None client2) = false.
Proof.
  assert (clients_get (run two_clients init) 2%nat = Some client2) as H2
    by (vm_compute; reflexivity).
  destruct (last_subscription_wins 2%nat (Some "ETHUSD") None _ _ H2)
    as (Heq & _ & Hoff).
  split; [exact Heq|]. by apply Hoff.
Defined.

(** ** The status listing and new connections *)

Lemma StronglySorted_filter_lt (P : nat → Prop) `{!∀ x, Decision (P x)}
    (l : list nat) :
  StronglySorted lt l → StronglySorted lt (filter P l).
Proof.
  induction 1 as [|x l Hs IH Hx]; [constructor|].
  rewrite filter_cons. destruct (decide (P x)); [|done].
  constructor; [done|].
  apply Forall_forall. intros y [_ Hy]%list_elem_of_filter.
  by eapply Forall_forall in Hx.
Qed.

Lemma step_clients_sorted now e st :
  refs_bounded (clientIdCounter st) st →
  StronglySorted lt (clients st) →
  StronglySorted lt (clients (step now e st)).
Proof.
  intros (Hb & _) Hs.
  destruct (is_request e) eqn:Hreq.
  { destruct (step_request_registry now e st Hreq) as (_ & -> & _). done. }
  destruct e as [addr|i data|i|i|i rs|key alert|alert| |]; try done; simpl.
  - unfold clients_set. case_decide; [done|].
    apply StronglySorted_app_2; [|done|repeat constructor].
    intros x y Hx%Hb ->%list_elem_of_singleton. lia.
  - by rewrite on_message_clients.
  - unfold on_close. destruct (clients_get st i); simpl;
      by apply StronglySorted_filter_lt.
  - unfold on_error. destruct (clients_get st i); simpl;
      by apply StronglySorted_filter_lt.
Qed.

Lemma run_clients_sorted tr : StronglySorted lt (clients (run tr init)).
Proof.
  induction tr as [|[t e] tr IH] using rev_ind; [constructor|].
  rewrite run_snoc. apply step_clients_sorted; [apply run_refs_bounded|done].
Qed.

Lemma snapshot_ids (h : gmap nat ClientObj) (l : list nat) ls :
  mapM (λ i, h !! i ≫= summary_of i) l = Some ls → sum_id <$> ls = l.
Proof.
  revert ls. induction l as [|i l IH]; intros ls Hm.
  - by injection Hm as <-.
  - simpl in Hm. destruct (h !! i) as [c|]; [|done]. simpl in Hm.
    destruct (summary_of i c) as [s|] eqn:Hs; [|done]. simpl in Hm.
    destruct (mapM _ l) as [ls'|]; [|done].
    injection Hm as <-. unfold summary_of in Hs.
    destruct (redact (webhookId c)) as [wid|]; [|done].
    injection Hs as <-. simpl. f_equal. by apply IH.
Qed.

(** X16: the status request changes nothing.  When some connected client
    holds a [webhookId] that is not a string it fails with a server error;
    otherwise its listing names the connections of the primary map, each
    once, oldest first: the ids of the entries are the keys of the primary
    map and they are strictly increasing, and the response reports as many
    connected clients as the listing has entries. *)
Theorem status_listing_is_ordered_by_id tr now :
  let st := run tr init in
  (get_status now st).1 = st
  ∧ (holds_other_key st → get_status now st = (st, RServerError))
  ∧ (¬ holds_other_key st →
     ∃ l, get_status now st
            = (st, RStatus (length l) (size (webhookClients st))
                     (size (legacyClients st)) l now)
          ∧ sum_id <$> l = clients st
          ∧ StronglySorted lt (sum_id <$> l)).
Proof.
  intros st.
  pose proof (run_clients_allocated tr) as Hal. fold st in Hal.
  split_and!.
  - apply get_status_state.
  - intros Ho. destruct (get_status_cases now st Hal) as [[_ E]|[Hn _]]; done.
  - intros Hn.
    destruct (get_status_cases now st Hal) as [[Ho _]|(_ & l & Hl & E)];
      [done|].
    pose proof (snapshot_ids _ _ _ Hl) as Hids.
    exists l. split_and!.
    + rewrite E. do 2 f_equal. by rewrite <- Hids, length_fmap.
    + done.
    + rewrite Hids. apply run_clients_sorted.
Qed.

Lemma status_listing_is_ordered_by_id_witness :
  get_status 9 (run other_key init) = (run other_key init, RServerError)
  ∧ ∃ l, get_status 9 (run two_clients init)
           = (run two_clients init, RStatus (length l) 1 1 l 9)
         ∧ sum_id <$> l = [1%nat; 2%nat].
Proof.
  destruct (status_listing_is_ordered_by_id other_key 9) as (_ & Herr & _).
  destruct (status_listing_is_ordered_by_id two_clients 9) as (_ & _ & Hok).
  split.
  - apply Herr. exists 1%nat. eexists _, 12345%N.
    split; vm_compute; reflexivity.
  - destruct Hok as (l & E & Hids & _).
    + eapply snapshot_Some_no_other_key. vm_compute. reflexivity.
    + exists l. split; [exact E|exact Hids].
Defined.


(** ** Sockets *)

Lemma welcome_first_moved (ss ss' : gmap nat WebSocket) :
  (∀ j, socket_moved (ss !! j) (ss' !! j)) →
  welcome_first ss → welcome_first ss'.
Proof.
  intros Hm Hw i w' Hi.
  destruct (Hm i) as [E|[[m E]|[rs E]]]; rewrite E in Hi.
  - by apply Hw.
  - destruct (ss !! i) as [w|] eqn:Hs; [|done]. injection Hi as <-.
    destruct (Hw i w Hs) as (t & rest & Hsent). exists t, (rest ++ [m]).
    simpl. by rewrite Hsent.
  - destruct (ss !! i) as [w|] eqn:Hs; [|done]. injection Hi as <-.
    simpl. by apply Hw.
Qed.

Lemma socket_send_moved s m (ss : gmap nat WebSocket) j :
  socket_moved (ss !! j) (socket_send s m ss !! j).
Proof.
  unfold socket_send. rewrite lookup_alter.
  case_decide; [subst; right; left; by exists m|by left].
Qed.

Lemma on_message_socket_moved now i data st j :
  socket_moved (sockets st !! j) (sockets (on_message now i data st) !! j).
Proof.
  destruct data as [wid legacy|sym| | |]; simpl; try by left.
  - unfold on_register. destruct (clients_get st i); [|by left].
    destruct (truthy_key wid); [apply socket_send_moved|].
    destruct legacy; [apply socket_send_moved|by left].
  - unfold on_subscribe. destruct (clients_get st i); by left.
  - apply socket_send_moved.
  - unfold on_clear_session. destruct (clients_get st i); [|by left].
    apply socket_send_moved.
Qed.

Lemma step_socket_moved now e st j :
  heap_ok (heap st) → NoDup (clients st) →
  (∀ addr, e ≠ Connection addr) →
  socket_moved (sockets st !! j) (sockets (step now e st) !! j).
Proof.
  intros Hok Hnd Hc.
  destruct e as [addr|i data|i|i|i rs|key alert|alert| |]; unfold step.
  - by destruct (Hc addr).
  - apply on_message_socket_moved.
  - left. by destruct (on_close_untouched i st) as (_ & -> & _).
  - left. by destruct (on_error_untouched i st) as (_ & -> & _).
  - simpl. rewrite lookup_alter. case_decide; [subst|by left].
    right. right. by exists rs.
  - rewrite post_webhook_alert_socket by done.
    case_decide; [|by left]. destruct (receives _ _ _ _); [|by left].
    right. left. by eexists.
  - rewrite post_alert_socket by done.
    case_decide; [|by left]. destruct (receives _ _ _ _); [|by left].
    right. left. by eexists.
  - rewrite get_status_state. by left.
  - rewrite get_test_socket by done.
    case_decide; [|by left]. destruct (receives _ _ _ _); [|by left].
    right. left. by eexists.
Qed.

Lemma run_welcome_first tr : welcome_first (sockets (run tr init)).
Proof.
  induction tr as [|[t e] tr IH] using rev_ind.
  - intros i w. simpl. by rewrite lookup_empty.
  - rewrite run_snoc.
    destruct (decide (is_connection e = true)) as [Hc|Hc].
    + destruct e; try done. simpl. intros i w. rewrite lookup_insert.
      case_decide; [|by apply IH]. intros [= <-]. subst i. simpl. by eauto.
    + eapply welcome_first_moved; [|exact IH].
      intros j. apply step_socket_moved;
        [apply run_heap_ok|apply run_clients_NoDup|].
      intros addr ->. by apply Hc.
Qed.

(** X18: the first message on every socket is the welcome message with the
    id of its connection; whatever is sent later (acknowledgements, pongs,
    alerts) comes after it. *)
Theorem welcome_message_comes_first tr i w :
  sockets (run tr init) !! i = Some w →
  ∃ t rest, sent w = FConnected i t :: rest.
Proof. apply run_welcome_first. Qed.

Lemma welcome_message_comes_first_witness :
  ∃ t rest, sent socket2 = FConnected 2 t :: rest.
Proof.
  apply (welcome_message_comes_first two_clients 2%nat socket2).
  vm_compute. reflexivity.
Defined.

(** X19: no endpoint writes to a socket that is not open: a socket whose
    [readyState] is [CONNECTING], [CLOSING] or [CLOSED] is left as it is by
    the keyed endpoint, the legacy endpoint and the test endpoint. *)
Theorem socket_that_is_not_open_is_never_written tr now key alert r w :
  let st := run tr init in
  sockets st !! r = Some w →
  readyState w ≠ OPEN →
  sockets (post_webhook_alert now key alert st).1 !! r = Some w
  ∧ sockets (post_alert now alert st).1 !! r = Some w
  ∧ sockets (get_test now st).1 !! r = Some w.
Proof.
  intros st Hw Hno.
  pose proof (run_heap_ok tr) as Hok. fold st in Hok.
  pose proof (run_clients_NoDup tr) as Hnd. fold st in Hnd.
  assert (∀ accept, receives accept (heap st) (sockets st) r = false) as Hr.
  { intros accept. unfold receives.
    destruct (heap st !! r) as [c|] eqn:Hc; [|done].
    destruct (Hok _ _ Hc) as [Hws _].
    unfold ws_is_open, is_open. rewrite Hws, Hw.
    rewrite bool_decide_eq_false_2 by done. apply andb_false_r. }
  split_and!.
  - rewrite post_webhook_alert_socket by done. rewrite Hr. by case_decide.
  - rewrite post_alert_socket by done. rewrite Hr. by case_decide.
  - rewrite get_test_socket by done. rewrite Hr. by case_decide.
Qed.

Lemma socket_that_is_not_open_is_never_written_witness :
  sockets
    (get_test 7000 (run (two_clients ++ [(5, Transport 1%nat CLOSING)]) init)).1
    !! 1%nat
  = Some (set_readyState CLOSING socket1).
Proof.
  apply (socket_that_is_not_open_is_never_written
           (two_clients ++ [(5, Transport 1%nat CLOSING)]) 7000 (js "abc123")
           ethusd 1%nat (set_readyState CLOSING socket1)).
  - vm_compute. reflexivity.
  - simpl. intros H. discriminate H.
Defined.

(** ** Register and clear_session, end to end *)




(** X21: [clear_session] silences a connection for the next 10000 ms and no
    longer.  After the message is handled at clock reading [t], the socket
    holds the "session_cleared" acknowledgement; no keyed or legacy alert
    posted before [t + 10000] is sent to it, and from [t + 10000] on an alert
    for the key it is registered under is sent again (open socket). *)
Theorem clear_session_silences_for_ten_seconds tr t now alert i c w :
  let st := run tr init in
  let st1 := on_clear_session t i st in
  let w1 := ws_send (FSessionCleared t) w in
  clients_get st i = Some c →
  sockets st !! i = Some w →
  readyState w = OPEN →
  0 ≤ now →
  sockets st1 !! i = Some w1
  ∧ (now < t + 10000 →
     (∀ key, sockets (post_webhook_alert now key alert st1).1 !! i = Some w1)
     ∧ sockets (post_alert now alert st1).1 !! i = Some w1)
  ∧ (t + 10000 ≤ now →
     ∀ k, webhookId c = Some (KStr k) →
       sockets (post_webhook_alert now k alert st1).1 !! i
         = Some (ws_send (FAlert alert (Some k) false now) w1)).
Proof.
  intros st st1 w1 Hc Hw Hopen H0.
  assert (st1 = run (tr ++ [(t, Message i ClearSession)]) init) as Hst1
    by by rewrite run_snoc.
  pose proof (run_heap_ok (tr ++ [(t, Message i ClearSession)])) as Hok.
  pose proof (run_binding_indexed (tr ++ [(t, Message i ClearSession)]))
    as Hbi.
  rewrite <- Hst1 in Hok, Hbi.
  pose proof (on_clear_session_get t i st c Hc) as Hc1. fold st1 in Hc1.
  assert (sockets st1 !! i = Some w1) as Hw1.
  { unfold st1, on_clear_session. rewrite Hc. simpl.
    unfold socket_send. by rewrite lookup_alter, decide_True, Hw. }
  pose proof Hc1 as [_ Hh1]%clients_get_Some.
  destruct (Hok _ _ Hh1) as [Hws _].
  assert (ws_is_open (sockets st1) (set_ignoreUntil (t + 10000) c) = true)
    as Ho.
  { apply (ws_is_open_lookup _ _ w1); [by rewrite Hws|done]. }
  split_and!; [done| |].
  - intros Hlt.
    assert (in_ignore_window now (set_ignoreUntil (t + 10000) c) = true)
      as Hwin by by apply in_ignore_window_true.
    split.
    + intros key. rewrite post_webhook_alert_socket by done.
      unfold receives, keyed_accept. rewrite Hh1, Hwin. simpl.
      by case_decide.
    + rewrite post_alert_socket by done.
      unfold receives, legacy_accept. rewrite Hh1, Hwin. simpl.
      by case_decide.
  - intros Hle k Hk.
    assert (in_ignore_window now (set_ignoreUntil (t + 10000) c) = false)
      as Hwin by by apply in_ignore_window_false.
    destruct (Hbi i _ Hc1) as [Hkey _].
    destruct (Hkey (KStr k) Hk) as (_ & _ & Hin).
    rewrite post_webhook_alert_socket by done.
    rewrite decide_True by done.
    unfold receives, keyed_accept. by rewrite Hh1, Hwin, Ho, Hw1.
Qed.

Lemma clear_session_silences_for_ten_seconds_witness :
  sockets
    (post_webhook_alert 16999 (js "abc123") ethusd
       (on_clear_session 7000 1%nat (run two_clients init))).1 !! 1%nat
    = Some (ws_send (FSessionCleared 7000) socket1)
  ∧ sockets
      (post_webhook_alert 17000 (js "abc123") ethusd
         (on_clear_session 7000 1%nat (run two_clients init))).1 !! 1%nat
    = Some (ws_send (FAlert ethusd (Some (js "abc123")) false 17000)
              (ws_send (FSessionCleared 7000) socket1)).
Proof.
  assert (clients_get (run two_clients init) 1%nat = Some client1) as H1
    by (vm_compute; reflexivity).
  assert (sockets (run two_clients init) !! 1%nat = Some socket1) as W1
    by (vm_compute; reflexivity).
  split.
  - destruct (clear_session_silences_for_ten_seconds two_clients 7000 16999
                ethusd 1%nat client1 socket1 H1 W1 eq_refl)
      as (_ & Hin & _); [lia|].
    destruct Hin as [Hk _]; [lia|]. apply Hk.
  - destruct (clear_session_silences_for_ten_seconds two_clients 7000 17000
                ethusd 1%nat client1 socket1 H1 W1 eq_refl)
      as (_ & _ & Hout); [lia|].
    apply Hout; [lia|reflexivity].
Defined.
